(** * T5-VAE: tokenizer, latent bottleneck and trainer of [t5_vae.py]

    A shallow embedding of the parts of [src/t5_vae.py] that the
    specification talks about, and the properties proved of them.

    - Python [str] values are [string]s (ASCII text), Python [int]s are [Z],
      list positions and vocabulary ids are [nat].
    - A Python [dict] is a [gmap], a Python [set] is a [gset]; the order in
      which a set is iterated is not specified by Python, so it is the
      parameter [SetIteration], constrained to enumerate the set.
    - A raised exception is the [Raise] result of a small error monad.
    - Tensor entries are real numbers ([R]); rounding of the float32
      arithmetic of torch is outside this model. *)

From Stdlib Require Import ZArith List Ascii String Reals Lra Lia.
From stdpp Require Import base option list gmap strings pretty.

Local Open Scope string_scope.
Local Open Scope list_scope.
Local Open Scope Z_scope.

(** ** Exceptions *)

Module Py.

Inductive exn : Set :=
| AssertionError
| IndexError
| ValueError
| KeyError
| ZeroDivisionError
| RuntimeError.

Inductive res (A : Type) : Type :=
| Ok (a : A)
| Raise (e : exn).
Arguments Ok {A} a.
Arguments Raise {A} e.

#[global] Instance res_ret : MRet res := fun A a => Ok a.
#[global] Instance res_bind : MBind res := fun A B f m =>
  match m with
  | Ok a => f a
  | Raise e => Raise e
  end.

Definition of_option {A} (e : exn) (o : option A) : res A :=
  match o with
  | Some a => Ok a
  | None => Raise e
  end.

Definition is_ok {A} (r : res A) : Prop :=
  match r with Ok _ => True | Raise _ => False end.


(** [[f(x) for x in l]] where [f] may raise: the first exception wins. *)
Fixpoint map_res {A B} (f : A -> res B) (l : list A) : res (list B) :=
  match l with
  | [] => Ok []
  | x :: l' => y ← f x; ys ← map_res f l'; Ok (y :: ys)
  end.

(** ** Strings *)

(** [s.split(sep)] for a one-character separator: every occurrence of the
    separator cuts, empty fields are kept, the result is never empty. *)
Fixpoint split (sep : ascii) (s : string) : list string :=
  match s with
  | EmptyString => [EmptyString]
  | String a s' =>
      if Ascii.eqb a sep then EmptyString :: split sep s'
      else match split sep s' with
           | w :: ws => String a w :: ws
           | [] => [String a EmptyString]
           end
  end.

(** The characters [str.strip()] and [int()] treat as white space, among
    the ASCII ones. *)
Definition is_space (a : ascii) : bool :=
  let n := nat_of_ascii a in
  ((9 <=? n)%nat && (n <=? 13)%nat) || ((28 <=? n)%nat && (n <=? 32)%nat).

Fixpoint lstrip (s : string) : string :=
  match s with
  | EmptyString => EmptyString
  | String a s' => if is_space a then lstrip s' else s
  end.

Definition rstrip (s : string) : string :=
  String.rev (lstrip (String.rev s)).

(** [s.strip()] *)
Definition strip (s : string) : string := rstrip (lstrip s).

(** Decimal digits with single underscores between them, as [int()] reads
    them; [prev] tells whether the previous character was a digit. *)
Fixpoint int_digits (acc : Z) (prev : bool) (s : string) : option Z :=
  match s with
  | EmptyString => if prev then Some acc else None
  | String a s' =>
      match Ascii.is_nat a with
      | Some d => int_digits (10 * acc + Z.of_nat d) true s'
      | None =>
          if Ascii.eqb a "_" && prev then int_digits acc false s' else None
      end
  end.

(** [int(s)] on a string: [None] stands for [ValueError]. *)
Definition int (s : string) : option Z :=
  match strip s with
  | String "-" r => Z.opp <$> int_digits 0 false r
  | String "+" r => int_digits 0 false r
  | t => int_digits 0 false t
  end.

(** [c in s] for a character *)
Fixpoint has_char (c : ascii) (s : string) : bool :=
  match s with
  | EmptyString => false
  | String a s' => Ascii.eqb a c || has_char c s'
  end.

(** [s[:n]] *)
Definition prefix (n : nat) (s : string) : string := substring 0 n s.

(** [str(n)], also what ["{}".format(n)] prints for an [int]. *)
Definition str (n : Z) : string := pretty n.

(** [min(l, key=key)]: the first element whose key is smallest;
    [ValueError] on an empty iterable. *)
Fixpoint min_from (key : Z -> Z) (best : Z) (l : list Z) : Z :=
  match l with
  | [] => best
  | x :: l' => min_from key (if (key x <? key best)%Z then x else best) l'
  end.

Definition min_key (key : Z -> Z) (l : list Z) : res Z :=
  match l with
  | [] => Raise ValueError
  | x :: l' => Ok (min_from key x l')
  end.

End Py.

Import Py.

(** ** Iteration order of sets

    [list(set(tokens))] and [min(self.wait_amts, ...)] walk a Python set.
    The language fixes no order for that walk (for strings it changes from
    one process to the next with the hash seed), so the embedding is
    parametric in it: any enumeration of the elements, each once. *)

Class SetIteration : Type := {
  iter_str : gset string -> list string;
  iter_int : gset Z -> list Z;
  iter_str_perm : forall s, iter_str s ≡ₚ elements s;
  iter_int_perm : forall s, iter_int s ≡ₚ elements s
}.

(** One concrete order, used to run the model on examples. *)
Definition elements_iteration : SetIteration := {|
  iter_str := elements;
  iter_int := elements;
  iter_str_perm := fun s => reflexivity (elements s);
  iter_int_perm := fun s => reflexivity (elements s)
|}.

(** ** class NesT5Tokenizer *)

Record NesT5Tokenizer : Type := {
  index2vocab : list string;
  pad_token_id : nat;
  eos_token_id : nat;
  vocab2index : gmap string nat;
  wait_amts : gset Z
}.

(** [{word: i for i, word in enumerate(l)}], counting from [i]: a later
    occurrence of a word overwrites an earlier one. *)
Fixpoint dict_of_enumerate (i : nat) (l : list string) (d : gmap string nat)
  : gmap string nat :=
  match l with
  | [] => d
  | word :: l' => dict_of_enumerate (S i) l' (<[word := i]> d)
  end.

(** [int(word.split("_")[1])] *)
Definition wait_amt_of (word : string) : res Z :=
  fld ← of_option IndexError (split "_" word !! 1%nat);
  of_option ValueError (int fld).

(** The loop that fills [self.wait_amts] in [__init__]. *)
Fixpoint collect_wait_amts (words : list string) (acc : gset Z) : res (gset Z) :=
  match words with
  | [] => Ok acc
  | word :: ws =>
      if decide (prefix 2 word = "WT") then
        n ← wait_amt_of word; collect_wait_amts ws ({[n]} ∪ acc)
      else collect_wait_amts ws acc
  end.

(** The lines of the vocabulary file as [__init__] cleans them: split at
    newlines, empty strings dropped, then each one stripped. *)
Definition vocab_lines (contents : string) : list string :=
  strip <$> filter (fun t => t <> "") (split "010" contents).



(** [NesT5Tokenizer.__init__], on the text read from [vocab_file]. *)
Definition NesT5Tokenizer_init `{SetIteration} (contents : string)
  : res NesT5Tokenizer :=
  let tokens := vocab_lines contents in
  let tokens := iter_str (list_to_set tokens) in
  if decide (10 < length tokens)%nat then
    let i2v := "<pad>" :: "</s>" :: tokens in
    amts ← collect_wait_amts i2v ∅;
    Ok {| index2vocab := i2v;
          pad_token_id := 0;
          eos_token_id := 1;
          vocab2index := dict_of_enumerate 0 i2v ∅;
          wait_amts := amts |}
  else Raise AssertionError.

(** [NesT5Tokenizer.get_index] *)
Definition get_index `{SetIteration} (self : NesT5Tokenizer) (word : string)
  : res nat :=
  match vocab2index self !! word with
  | Some i => Ok i
  | None =>
      if decide (prefix 2 word = "WT") then
        wait_amt ← wait_amt_of word;
        closest ← min_key (fun x => Z.abs (x - wait_amt))
                          (iter_int (wait_amts self));
        of_option KeyError (vocab2index self !! ("WT_" +:+ str closest))
      else Raise AssertionError
  end.

(** [NesT5Tokenizer.tokenize] *)
Definition tokenize `{SetIteration} (self : NesT5Tokenizer) (txt : string)
  : res (list nat) :=
  map_res (get_index self) (split " " txt).


(** The state [__init__] leaves behind when it returns. *)
Record built `{SetIteration} (contents : string) (tk : NesT5Tokenizer)
  : Prop := {
  built_index2vocab :
    index2vocab tk
    = "<pad>" :: "</s>" :: iter_str (list_to_set (vocab_lines contents));
  built_size : (10 < length (iter_str (list_to_set (vocab_lines contents))))%nat;
  built_vocab2index :
    vocab2index tk = dict_of_enumerate 0 (index2vocab tk) ∅;
  built_wait_amts : collect_wait_amts (index2vocab tk) ∅ = Ok (wait_amts tk);
  built_pad : pad_token_id tk = 0%nat;
  built_eos : eos_token_id tk = 1%nat
}.

(** [NesT5Tokenizer.__len__] *)
Definition NesT5Tokenizer_len (self : NesT5Tokenizer) : nat :=
  length (index2vocab self).

(** ** Tensors

    A 2-D tensor is the list of its rows, a 3-D tensor (batch, position,
    feature) the list of its examples.  Entries are reals; [None] is the
    [nan] that torch returns for the mean of no element. *)

Module Torch.

Local Open Scope R_scope.

Definition tensor2 : Type := list (list R).
Definition tensor3 : Type := list (list (list R)).

(** [x] has shape [(n, d)] *)
Definition shape2 (n d : nat) (x : tensor2) : Prop :=
  length x = n /\ Forall (fun row => length row = d) x.

(** [x] has shape [(b, s, d)] *)
Definition shape3 (b s d : nat) (x : tensor3) : Prop :=
  length x = b /\ Forall (shape2 s d) x.

Definition Rsum (l : list R) : R := fold_right Rplus 0 l.

(** [torch.mean] of the listed entries *)
Definition mean (l : list R) : option R :=
  match l with
  | [] => None
  | _ => Some (Rsum l / INR (length l))
  end.

(** [torch.mean] of a matrix whose entries may be [nan] *)
Definition mean_all (k : list (list (option R))) : option R :=
  l ← mapM (M := option) (fun o : option R => o) (concat k); mean l.

(** [x.shape[1]] of a batch of rows.  An empty batch carries no row to
    read it from. *)
Definition width (x : tensor2) : nat :=
  match x with
  | [] => O
  | row :: _ => length row
  end.

Definition sigmoid (x : R) : R := 1 / (1 + exp (- x)).

(** *** nn.Linear *)

Record Linear : Type := {
  in_features : nat;
  out_features : nat;
  weight : list (list R);
  bias : list R
}.

(** The shapes [nn.Linear(i, o)] gives its parameters. *)
Definition Linear_shaped (i o : nat) (l : Linear) : Prop :=
  in_features l = i /\ out_features l = o /\
  shape2 o i (weight l) /\ length (bias l) = o.

Definition dot (u v : list R) : R := Rsum (zip_with Rmult u v).

(** The layer on one feature vector: [W v + b]; torch refuses a vector of
    another length than [in_features]. *)
Definition Linear_forward1 (l : Linear) (v : list R) : res (list R) :=
  if decide (length v = in_features l) then
    Ok (zip_with (fun row b => dot row v + b) (weight l) (bias l))
  else Raise RuntimeError.

(** The layer on a 2-D tensor: applied to every row. *)
Definition Linear_forward2 (l : Linear) (x : tensor2) : res tensor2 :=
  map_res (Linear_forward1 l) x.

(** The layer on a 3-D tensor: applied along the last axis. *)
Definition Linear_forward3 (l : Linear) (x : tensor3) : res tensor3 :=
  map_res (Linear_forward2 l) x.

(** [x.view(batch_size, -1)] with [batch_size = x.size(0)]: each example
    flattened; torch cannot infer [-1] for a tensor of no element. *)
Definition view_flat (x : tensor3) : res tensor2 :=
  let flat := fmap (M := list) (@concat R) x in
  if decide (length (concat flat) = O) then Raise RuntimeError else Ok flat.

(** A row cut into pieces of [n] entries; [None] when it does not divide. *)
Fixpoint chunks (fuel n : nat) (row : list R) : option (list (list R)) :=
  match row with
  | [] => Some []
  | _ =>
      match fuel with
      | O => None
      | S fuel' =>
          if decide (n <= length row)%nat then
            cs ← chunks fuel' n (drop n row); Some (take n row :: cs)
          else None
      end
  end.

(** [x.view(batch_size, -1, n)] with [batch_size = x.size(0)] *)
Definition view_tokens (n : nat) (x : tensor2) : res tensor3 :=
  if decide (length (concat x) = O) then Raise RuntimeError
  else of_option RuntimeError
         (mapM (fun row => chunks (length row) n row) x).

(** *** class LatentEncoderLargeTanh_1kLatent *)

Record LatentEncoderLargeTanh_1kLatent : Type := {
  shrink_tokens : Linear;
  shrink_sequence : Linear
}.

(** [__init__]: the two layers come with fresh weights of the shapes
    asked for; the weights are left open here. *)
Definition LatentEncoder_built (dim_m set_input_size latent_size : nat)
    (e : LatentEncoderLargeTanh_1kLatent) : Prop :=
  (100 < dim_m)%nat /\
  Linear_shaped dim_m 100 (shrink_tokens e) /\
  Linear_shaped (100 * set_input_size) latent_size (shrink_sequence e).

(** [LatentEncoderLargeTanh_1kLatent.forward] *)
Definition LatentEncoder_forward (self : LatentEncoderLargeTanh_1kLatent)
    (encoding : tensor3) : res tensor2 :=
  encoding ← Linear_forward3 (shrink_tokens self) encoding;
  flat ← view_flat encoding;
  encoding ← Linear_forward2 (shrink_sequence self) flat;
  Ok (fmap (M := list) (fmap (M := list) tanh) encoding).

(** *** class LatentDecoderLargeT5NormFF

    [norm] is the [T5LayerFF] block of the transformers library, built
    while [config.dropout_rate] is 0: an external collaborator, taken as
    a function of its input. *)

Record LatentDecoderLargeT5NormFF : Type := {
  decode_latent : Linear;
  grow_sequence : Linear;
  grow_tokens : Linear;
  norm : tensor3 -> res tensor3
}.

(** What is assumed of the external block over hidden size [d]: it returns
    a tensor of the shape of its input. *)
Definition norm_keeps_shape (d : nat) (f : tensor3 -> res tensor3) : Prop :=
  forall b s x, shape3 b s d x -> exists y, f x = Ok y /\ shape3 b s d y.

Definition LatentDecoder_built (dim_m set_input_size latent_size : nat)
    (d : LatentDecoderLargeT5NormFF) : Prop :=
  Linear_shaped latent_size (10 * set_input_size) (decode_latent d) /\
  Linear_shaped (10 * set_input_size) (100 * set_input_size) (grow_sequence d) /\
  Linear_shaped 100 dim_m (grow_tokens d) /\
  norm_keeps_shape dim_m (norm d).

(** [LatentDecoderLargeT5NormFF.forward] *)
Definition LatentDecoder_forward (self : LatentDecoderLargeT5NormFF)
    (latent : tensor2) : res tensor3 :=
  latent ← Linear_forward2 (decode_latent self) latent;
  latent ← Linear_forward2 (grow_sequence self) latent;
  tokens ← view_tokens 100 latent;
  grown ← Linear_forward3 (grow_tokens self) tokens;
  norm self grown.

(** *** class FullSeqAE *)

(** [FullSeqAE._compute_kernel]: entry [(i, j)] is
    [exp(-mean((x_i - y_j) ** 2) / dim * 1.0)]; [y.view(1, y_size, dim)]
    refuses rows of another width than [dim].  An empty [x], whose width
    the list does not record, is taken to have the width of [y]: there is
    no entry to compute then. *)
Definition _compute_kernel (x y : tensor2) : res (list (list (option R))) :=
  let dim := width x in
  if decide (x = [] \/ Forall (fun row => length row = dim) y) then
    Ok (fmap (M := list) (fun xi =>
          fmap (M := list) (fun yj =>
            m ← mean (zip_with (fun a b => (a - b) ^ 2) xi yj);
            Some (exp (- m / INR dim * 1))) y) x)
  else Raise RuntimeError.

(** [FullSeqAE._compute_mmd] *)
Definition _compute_mmd (x y : tensor2) : res (option R) :=
  x_kernel ← _compute_kernel x x;
  y_kernel ← _compute_kernel y y;
  xy_kernel ← _compute_kernel x y;
  Ok (a ← mean_all x_kernel; b ← mean_all y_kernel; c ← mean_all xy_kernel;
      Some (a + b - 2 * c)).

(** The default random generator of torch: the standard-normal samples it
    has still to hand out, in order. *)
Definition Generator : Type := nat -> R.

(** [torch.randn((n, d))]: takes [n * d] samples off the generator. *)
Definition randn (n d : nat) (g : Generator) : tensor2 * Generator :=
  (fmap (M := list)
     (fun i => fmap (M := list) (fun k => g (i * d + k)%nat) (seq 0 d))
     (seq 0 n),
   fun i => g (n * d + i)%nat).

Record FullSeqAE : Type := {
  encoder : LatentEncoderLargeTanh_1kLatent;
  decoder : LatentDecoderLargeT5NormFF
}.

(** [FullSeqAE._model_forward] *)
Definition _model_forward (self : FullSeqAE) (encoding : tensor3)
  : res (tensor3 * tensor2) :=
  latent ← LatentEncoder_forward (encoder self) encoding;
  recon ← LatentDecoder_forward (decoder self) latent;
  Ok (recon, latent).

(** [torch.nn.MSELoss(reduction="mean")] on two tensors of one shape.
    (On shapes that differ torch broadcasts when it can, and raises
    otherwise; only the second is modelled.) *)
Definition MSELoss (input target : tensor3) : res (option R) :=
  if decide (fmap (M := list) (fmap (M := list) length) input
             = fmap (M := list) (fmap (M := list) length) target) then
    Ok (mean (zip_with (fun a b => (a - b) ^ 2)
                (concat (concat input)) (concat (concat target))))
  else Raise RuntimeError.

(** [FullSeqAE._regularliser_loss] *)
Definition _regularliser_loss (self : FullSeqAE) (input_encoding : tensor3)
    (latent : tensor2) (g : Generator) : res (option R * Generator) :=
  let loss := 0 in
  let '(true_samples, g') := randn (length latent) (width latent) g in
  mmd ← _compute_mmd true_samples latent;
  Ok (fmap (M := option) (Rplus loss) mmd, g').

(** The three shapes of what [FullSeqAE.forward] returns. *)
Inductive forward_output : Type :=
| JustLatent (latent : tensor2)
| JustEncoding (recon_encoding : tensor3)
| Losses (recon_loss reg_loss : option R) (recon_encoding : tensor3).

(** [FullSeqAE.forward], threading the random generator. *)
Definition FullSeqAE_forward (self : FullSeqAE) (input_encoding : tensor3)
    (just_get_latent just_get_encoding : bool) (g : Generator)
  : res (forward_output * Generator) :=
  '(recon_encoding, latent) ← _model_forward self input_encoding;
  if just_get_latent then Ok (JustLatent latent, g)
  else if just_get_encoding then Ok (JustEncoding recon_encoding, g)
  else
    recon_loss ← MSELoss input_encoding recon_encoding;
    '(reg_loss, g') ← _regularliser_loss self input_encoding latent g;
    Ok (Losses recon_loss reg_loss recon_encoding, g').

(** What a call returns, the state of the generator left aside. *)
Definition returned {A} (r : res (A * Generator)) : res A :=
  match r with
  | Ok (a, _) => Ok a
  | Raise e => Raise e
  end.

End Torch.

(** ** class T5_VAE_Trainer *)

Module Trainer.

Import Torch.

(** The fields of [MyTrainingArguments] that the training loop reads.
    [num_train_epochs] stands for [int(num_train_epochs)]. *)
Record TrainingArguments : Type := {
  gradient_accumulation_steps : Z;
  max_steps : Z;
  num_train_epochs : Z;
  reg_constant_weight : option R;
  reg_schedule_k : R;
  reg_schedule_b : R
}.

(** [T5_VAE_Trainer._regulariser_loss_weight_schedule] *)
Definition _regulariser_loss_weight_schedule (args : TrainingArguments)
    (global_step : Z) : R :=
  match reg_constant_weight args with
  | Some w => w
  | None =>
      sigmoid (IZR global_step * reg_schedule_k args - reg_schedule_b args)%R
  end.

(** [a // b] and [a % b] on Python integers. *)
Definition floordiv (a b : Z) : res Z :=
  if decide (b = 0) then Raise ZeroDivisionError else Ok (a / b).

Definition pymod (a b : Z) : res Z :=
  if decide (b = 0) then Raise ZeroDivisionError else Ok (a mod b).

(** What the loop of [train] does, in order.  [OptimizerStep] stands for
    clip, [optimizer.step()], [scheduler.step()], [model.zero_grad()] and
    the increment of [global_step]; it records how many backward passes
    the gradients held. *)
Inductive event : Type :=
| Skipped (epoch : Z) (step : nat)
| Backward (epoch : Z) (step : nat)
| OptimizerStep (epoch : Z) (step : nat) (accumulated : nat).

Record TrainerState : Type := {
  global_step : Z;
  steps_trained_in_current_epoch : Z;
  (** backward passes since the last [zero_grad] *)
  accumulated : nat;
  trace : list event
}.

(** [int(model_path.split("-")[-1].split("/")[0])] *)
Definition checkpoint_step (model_path : string) : option Z :=
  int (hd "" (split "/" (List.last (split "-" model_path) ""))).

(** The values [train] starts from: [(global_step, epochs_trained,
    steps_trained_in_current_epoch)].  A [ValueError] of [int] is caught
    and training starts afresh; a division by zero is not. *)
Definition resume (args : TrainingArguments) (len : nat)
    (model_path : option string) : res (Z * Z * Z) :=
  match model_path with
  | None => Ok (0, 0, 0)
  | Some path =>
      match checkpoint_step path with
      | None => Ok (0, 0, 0)
      | Some n =>
          per_epoch ← floordiv (Z.of_nat len) (gradient_accumulation_steps args);
          epochs_trained ← floordiv n per_epoch;
          skip ← pymod (n * gradient_accumulation_steps args) (Z.of_nat len);
          Ok (n, epochs_trained, skip)
      end
  end.

(** The number of epochs [train] plans. *)
Definition planned_epochs (args : TrainingArguments) (len : nat) : res Z :=
  per_epoch ← floordiv (Z.of_nat len) (gradient_accumulation_steps args);
  if decide (0 < max_steps args) then
    q ← floordiv (max_steps args) per_epoch; Ok (q + 1)
  else Ok (num_train_epochs args).

(** [max_steps > 0 and global_step > max_steps] *)
Definition past_max_steps (args : TrainingArguments) (st : TrainerState) : bool :=
  bool_decide (0 < max_steps args) && bool_decide (max_steps args < global_step st).

(** The test that guards the optimizer step. *)
Definition at_boundary (args : TrainingArguments) (len step : nat) : bool :=
  bool_decide ((Z.of_nat step + 1) mod gradient_accumulation_steps args = 0)
  || (bool_decide (Z.of_nat len <= gradient_accumulation_steps args)
      && bool_decide (Z.of_nat step + 1 = Z.of_nat len)).

(** One turn of [for step, inputs in enumerate(epoch_iterator)]; the
    boolean tells whether the loop is left by [break]. *)
Definition train_step (args : TrainingArguments) (len : nat) (epoch : Z)
    (step : nat) (st : TrainerState) : TrainerState * bool :=
  if decide (0 < steps_trained_in_current_epoch st) then
    ({| global_step := global_step st;
        steps_trained_in_current_epoch := steps_trained_in_current_epoch st - 1;
        accumulated := accumulated st;
        trace := trace st ++ [Skipped epoch step] |}, false)
  else
    let st1 :=
      {| global_step := global_step st;
         steps_trained_in_current_epoch := steps_trained_in_current_epoch st;
         accumulated := S (accumulated st);
         trace := trace st ++ [Backward epoch step] |} in
    let st2 :=
      if at_boundary args len step then
        {| global_step := global_step st1 + 1;
           steps_trained_in_current_epoch := steps_trained_in_current_epoch st1;
           accumulated := O;
           trace := trace st1 ++ [OptimizerStep epoch step (accumulated st1)] |}
      else st1 in
    (st2, past_max_steps args st2).

(** The inner loop over the batches [steps] of one epoch. *)
Fixpoint train_epoch (args : TrainingArguments) (len : nat) (epoch : Z)
    (steps : list nat) (st : TrainerState) : TrainerState :=
  match steps with
  | [] => st
  | step :: rest =>
      let '(st', stop) := train_step args len epoch step st in
      if stop then st' else train_epoch args len epoch rest st'
  end.

(** The outer loop over the epochs. *)
Fixpoint train_epochs (args : TrainingArguments) (len : nat)
    (epochs : list Z) (st : TrainerState) : TrainerState :=
  match epochs with
  | [] => st
  | epoch :: rest =>
      let st' := train_epoch args len epoch (seq 0 len) st in
      if past_max_steps args st' then st'
      else train_epochs args len rest st'
  end.

(** [range(a, b)] *)
Definition range (a b : Z) : list Z :=
  (fun i => a + Z.of_nat i) <$> seq 0 (Z.to_nat (b - a)).

(** [T5_VAE_Trainer.train] over a dataloader of [len] batches: the plan,
    the resumption and the two loops.  Logging, evaluation and saving do
    not touch what is modelled here. *)
Definition train (args : TrainingArguments) (len : nat)
    (model_path : option string) : res TrainerState :=
  epochs ← planned_epochs args len;
  '(step0, epochs_trained, skip) ← resume args len model_path;
  let st0 := {| global_step := step0;
                steps_trained_in_current_epoch := skip;
                accumulated := O;
                trace := [] |} in
  Ok (train_epochs args len (range epochs_trained epochs) st0).

(** *** Reading a trace *)

(** The backward passes a trace leaves in the gradients: those after its
    last optimizer step. *)
Definition pending (tr : list event) : nat :=
  fold_left (fun n ev =>
               match ev with
               | Backward _ _ => S n
               | OptimizerStep _ _ _ => O
               | Skipped _ _ => n
               end) tr O.


Definition is_optimizer_step (ev : event) : bool :=
  match ev with OptimizerStep _ _ _ => true | _ => false end.

(** The number of optimizer steps in a trace. *)
Definition optimizer_steps (tr : list event) : nat :=
  length (filter (fun ev => is_optimizer_step ev = true) tr).

(** The traces the loop can write: a skipped batch, a backward pass off
    the boundary, or a backward pass on the boundary with the optimizer
    step that takes the gradients accumulated so far. *)
Inductive run_trace (args : TrainingArguments) (len : nat)
  : list event -> Prop :=
| run_nil : run_trace args len []
| run_skipped tr epoch step :
    run_trace args len tr -> run_trace args len (tr ++ [Skipped epoch step])
| run_backward tr epoch step :
    run_trace args len tr -> at_boundary args len step = false ->
    run_trace args len (tr ++ [Backward epoch step])
| run_optimizer_step tr epoch step :
    run_trace args len tr -> at_boundary args len step = true ->
    run_trace args len
      ((tr ++ [Backward epoch step])
       ++ [OptimizerStep epoch step (S (pending tr))]).

(** The loop writes such traces, and its counter is the pending count. *)
Definition tracks (args : TrainingArguments) (len : nat) (st : TrainerState)
  : Prop :=
  run_trace args len (trace st) /\ accumulated st = pending (trace st).

(** An optimizer step that takes [G] backward passes. *)
Definition takes_G (G : Z) (ev : event) : Prop :=
  match ev with
  | OptimizerStep _ _ c => Z.of_nat c = G
  | _ => True
  end.

(** The state before micro-step [step] of an epoch, when optimizer steps
    come every [G] micro-steps. *)
Definition counted (G : Z) (step : nat) (st : TrainerState) : Prop :=
  Z.of_nat (accumulated st)
  = (Z.of_nat step + steps_trained_in_current_epoch st) mod G
  /\ (0 < steps_trained_in_current_epoch st -> accumulated st = O)
  /\ 0 <= steps_trained_in_current_epoch st
  /\ Forall (takes_G G) (trace st).


End Trainer.

(** ** More of Python's strings *)

Module PyMore.

(** [s.count(c)] for a character *)
Fixpoint count_char (c : ascii) (s : string) : nat :=
  match s with
  | EmptyString => O
  | String a s' => (if Ascii.eqb a c then 1 else 0) + count_char c s'
  end.

(** [list(s)]: the characters of a string *)
Fixpoint chars (s : string) : list ascii :=
  match s with
  | EmptyString => []
  | String a s' => a :: chars s'
  end.

(** One of the decimal digits [0] to [9] *)
Definition is_digit (a : ascii) : Prop := is_Some (Ascii.is_nat a).

End PyMore.

Import PyMore.

(** Another order in which sets may be walked: that of [elements],
    backwards. *)
Definition reversed_iteration : SetIteration := {|
  iter_str := fun s => reverse (elements s);
  iter_int := fun s => reverse (elements s);
  iter_str_perm := fun s => reverse_Permutation (elements s);
  iter_int_perm := fun s => reverse_Permutation (elements s)
|}.

(** ** Counting in a trace of the training loop *)

Module TraceCount.

Import Trainer.





End TraceCount.

Import TraceCount.

(** ** Checkpoint directories *)

Module Checkpoint.

(** [s.startswith(c)] and [s.endswith(c)] for a character *)
Definition startswith (c : ascii) (s : string) : bool :=
  match s with
  | String a _ => Ascii.eqb a c
  | EmptyString => false
  end.

Fixpoint endswith (c : ascii) (s : string) : bool :=
  match s with
  | EmptyString => false
  | String a EmptyString => Ascii.eqb a c
  | String _ s' => endswith c s'
  end.

(** [os.path.join(a, b)] on POSIX paths: an absolute [b] replaces [a];
    no separator is added to an empty [a] or to one that ends in it. *)
Definition path_join (a b : string) : string :=
  if startswith "/" b then b
  else if bool_decide (a = "") || endswith "/" a then a +:+ b
  else a +:+ "/" +:+ b.

(** The directory [train] saves into at [global_step]:
    [os.path.join(self.args.output_dir,
    f"{PREFIX_CHECKPOINT_DIR}-{self.global_step}")].  The prefix is a
    constant of the transformers library. *)
Definition checkpoint_dir (PREFIX_CHECKPOINT_DIR output_dir : string)
    (global_step : Z) : string :=
  path_join output_dir (PREFIX_CHECKPOINT_DIR +:+ "-" +:+ str global_step).

End Checkpoint.

Import Checkpoint.

(** ** class NesDataset *)

Module Dataset.

(** [random.shuffle] rearranges a list in place; the arrangement it picks
    depends on the state of the random generator, so the embedding is
    parametric in it. *)
Class Shuffle : Type := {
  shuffle : list string -> list string;
  shuffle_perm : forall l, shuffle l ≡ₚ l
}.

(** What [pickle.load] may hand back: the list of examples, or any other
    object. *)
Inductive unpickled : Type :=
| Examples (examples : list (list nat))
| OtherObject.

(** [pickle.dump] and [pickle.load] on the bytes of a file; [None] stands
    for the exception [load] raises on bytes that hold no pickle. *)
Class Pickle : Type := {
  dump : list (list nat) -> string;
  load : string -> option unpickled;
  load_dump : forall examples, load (dump examples) = Some (Examples examples)
}.

(** The files the constructor sees, by path.  Directories are not
    modelled. *)
Definition FileSystem : Type := gmap string string.

Inductive error : Type :=
| Builtin (e : exn)
| Exception
| UnpicklingError.

(** [(p[:i], p[i:])] with [i = p.rfind("/") + 1] *)
Fixpoint rpartition (p : string) : string * string :=
  match p with
  | EmptyString => ("", "")
  | String a p' =>
      let '(head, tail) := rpartition p' in
      if bool_decide (head <> "") || Ascii.eqb a "/"
      then (String a head, tail)
      else ("", String a tail)
  end.

Fixpoint all_slashes (s : string) : bool :=
  match s with
  | EmptyString => true
  | String a s' => Ascii.eqb a "/" && all_slashes s'
  end.

Fixpoint lstrip_slashes (s : string) : string :=
  match s with
  | EmptyString => EmptyString
  | String a s' => if Ascii.eqb a "/" then lstrip_slashes s' else s
  end.

(** [s.rstrip("/")] *)
Definition rstrip_slashes (s : string) : string :=
  String.rev (lstrip_slashes (String.rev s)).

(** [os.path.split(p)] on POSIX paths: the part up to the last slash,
    without its trailing slashes unless it is made of slashes only, and
    the part after it. *)
Definition path_split (p : string) : string * string :=
  let '(head, tail) := rpartition p in
  if bool_decide (head <> "") && negb (all_slashes head)
  then (rstrip_slashes head, tail)
  else (head, tail).

(** [os.path.join(directory, f"nes_seq_size_{set_seq_size}_{filename}")] *)
Definition cached_features_file (file_path : string) (set_seq_size : Z)
  : string :=
  let '(directory, filename) := path_split file_path in
  path_join directory
    ("nes_seq_size_" +:+ str set_seq_size +:+ "_" +:+ filename).

(** What [os.path.join] puts before the name of the cache file. *)
Definition cache_prefix (file_path : string) : string :=
  let d := fst (path_split file_path) in
  if bool_decide (d = "") || endswith "/" d then d else d +:+ "/".

(** [NesDataset._get_text_sequences], on the text read from the file: the
    lines that are not empty, each one stripped.  The filter comes first,
    so a line of white space is kept, as the empty string. *)
Definition _get_text_sequences (content : string) : list string :=
  strip <$> filter (fun t => t <> "") (split "010" content).

(** [max(l)] and [min(l)] on a list of integers *)
Definition py_max (l : list nat) : res nat :=
  match l with
  | [] => Raise ValueError
  | x :: l' => Ok (fold_left Nat.max l' x)
  end.

Definition py_min (l : list nat) : res nat :=
  match l with
  | [] => Raise ValueError
  | x :: l' => Ok (fold_left Nat.min l' x)
  end.

(** The branch of [__init__] that builds the examples from the text of
    the corpus. *)
Definition build_examples `{SetIteration} `{Shuffle}
    (tokenizer : NesT5Tokenizer) (content : string) (set_seq_size : Z)
  : res (list (list nat)) :=
  let seq_texts := shuffle (_get_text_sequences content) in
  tokenized_seqs ← map_res (tokenize tokenizer) seq_texts;
  longest ← py_max (length <$> tokenized_seqs);
  shortest ← py_min (length <$> tokenized_seqs);
  if decide (longest = shortest /\ Z.of_nat shortest = set_seq_size)
  then Ok tokenized_seqs
  else Raise AssertionError.

(** [NesDataset.__init__]: what [self.examples] becomes, or the exception
    raised, and the files afterwards. *)
Definition NesDataset_init `{SetIteration} `{Shuffle} `{Pickle}
    (fs : FileSystem) (tokenizer : NesT5Tokenizer) (file_path : string)
    (set_seq_size : Z) (overwrite_cache : bool)
  : (unpickled + error) * FileSystem :=
  let cached := cached_features_file file_path set_seq_size in
  match (if overwrite_cache then None else fs !! cached) with
  | Some bytes =>
      match load bytes with
      | Some obj => (inl obj, fs)
      | None => (inr UnpicklingError, fs)
      end
  | None =>
      match fs !! file_path with
      | None => (inr Exception, fs)
      | Some content =>
          match build_examples tokenizer content set_seq_size with
          | Ok examples =>
              (inl (Examples examples), <[cached := dump examples]> fs)
          | Raise e => (inr (Builtin e), fs)
          end
      end
  end.

End Dataset.

Import Dataset.

(** ** t5_AE._greedy_logits *)

Module Greedy.

Inductive error : Type :=
| Raised (e : exn)
| UnboundLocalError.

Section Decoding.

(** The decoder of the T5 model with its output head is an external
    collaborator: [_decoder_logits] stands for
    [self._decoder_logits(decoder_input_ids, encoding)] at the encoding
    decoded, as a function of the ids fed; [topk_at logits i] stands for
    the index [torch.topk(logits[0, i], 1)] picks, or the exception of
    [logits[0, i]] or of [topk]. *)
Variable Logits : Type.
Variable _decoder_logits : list nat -> Logits.
Variable topk_at : Logits -> nat -> res nat.
Variable eos_token_id : nat.



End Decoding.

End Greedy.

Import Greedy.

(** ** Sums of entries that may be [nan] *)

Module NanSum.

Import Torch.

(** The sum of a list of entries, [nan] as soon as one of them is. *)
Definition osum (l : list (option R)) : option R :=
  foldr (fun o acc => a ← o; s ← acc; Some (a + s)%R) (Some 0%R) l.

(** One entry of the kernel of [_compute_kernel], at width [dim]. *)
Definition kernel_entry (dim : nat) (xi yj : list R) : option R :=
  m ← mean (zip_with (fun a b => (a - b) ^ 2)%R xi yj);
  Some (exp (- m / INR dim * 1))%R.

End NanSum.

Import NanSum.

(** ** The loss that [train] logs *)

Module LossLog.

Import Torch Trainer.

Record LoggingArguments : Type := {
  logging_steps : Z;
  logging_first_step : bool
}.

(** The part of the trainer that the loss accounting of [train] touches;
    [logged] lists the values given to [logs["loss"]], with the step they
    are logged at. *)
Record LossState : Type := {
  at_global_step : Z;
  tr_loss : R;
  logging_loss : R;
  logged : list (Z * R)
}.

(** What [_run_training_step] returns for a batch whose loss is [loss]:
    divided by the accumulation factor when that is above one. *)
Definition returned_loss (args : TrainingArguments) (loss : R) : R :=
  if decide (1 < gradient_accumulation_steps args)
  then (loss / IZR (gradient_accumulation_steps args))%R
  else loss.

(** [(logging_steps > 0 and global_step % logging_steps == 0) or
    (global_step == 1 and logging_first_step)] *)
Definition logging_due (la : LoggingArguments) (global_step : Z) : bool :=
  (bool_decide (0 < logging_steps la)
   && bool_decide (global_step mod logging_steps la = 0))
  || (bool_decide (global_step = 1) && logging_first_step la).

(** One turn of the inner loop of [train] in a run that skips no batch,
    as far as the loss is concerned: [loss_of step] is the loss of the
    batch of this turn before [_run_training_step] scales it. *)
Definition loss_step (args : TrainingArguments) (la : LoggingArguments)
    (len : nat) (loss_of : nat -> R) (step : nat) (st : LossState)
  : res LossState :=
  let tr := (tr_loss st + returned_loss args (loss_of step))%R in
  if at_boundary args len step then
    let gs := at_global_step st + 1 in
    if logging_due la gs then
      if decide (logging_steps la * gradient_accumulation_steps args = 0)
      then Raise ZeroDivisionError
      else
        Ok {| at_global_step := gs; tr_loss := tr; logging_loss := tr;
              logged := logged st
                        ++ [(gs, ((tr - logging_loss st)
                                  / IZR (logging_steps la
                                         * gradient_accumulation_steps args))%R)] |}
    else
      Ok {| at_global_step := gs; tr_loss := tr;
            logging_loss := logging_loss st; logged := logged st |}
  else
    Ok {| at_global_step := at_global_step st; tr_loss := tr;
          logging_loss := logging_loss st; logged := logged st |}.

(** The turns [steps] of the inner loop, left by [break] once
    [max_steps > 0 and global_step > max_steps]. *)
Fixpoint loss_steps (args : TrainingArguments) (la : LoggingArguments)
    (len : nat) (loss_of : nat -> R) (steps : list nat) (st : LossState)
  : res LossState :=
  match steps with
  | [] => Ok st
  | step :: rest =>
      st' ← loss_step args la len loss_of step st;
      if bool_decide (0 < max_steps args)
         && bool_decide (max_steps args < at_global_step st')
      then Ok st'
      else loss_steps args la len loss_of rest st'
  end.

(** The state [train] starts from. *)
Definition loss_start : LossState :=
  {| at_global_step := 0; tr_loss := 0%R; logging_loss := 0%R; logged := [] |}.

End LossLog.

Import LossLog.

(** ** Sample inputs

    A vocabulary file with two wait-amount buckets, duplicated and blank
    lines and padded lines; the tokenizer built from it, walking sets in
    the order of [elements]. *)

Module Samples.

Import Torch Trainer.

Definition nl : string := String "010" EmptyString.

Definition file_of (lines : list string) : string :=
  foldr (fun line rest => line +:+ nl +:+ rest) "" lines.

Definition vocab_file : string :=
  file_of ["WT_10"; "NOTEON_60"; "NOTEON_62"; "NOTEON_64"; "";
           "NOTEOFF_60"; " NOTEOFF_62 "; "NOTEOFF_64"; "P1"; "WT_20";
           "P2"; "TR"; "NOTEON_60"].

Definition no_tokenizer : NesT5Tokenizer :=
  {| index2vocab := []; pad_token_id := 0; eos_token_id := 1;
     vocab2index := ∅; wait_amts := ∅ |}.

Definition tokenizer_of (contents : string) : NesT5Tokenizer :=
  match NesT5Tokenizer_init (H := elements_iteration) contents with
  | Ok tk => tk
  | Raise _ => no_tokenizer
  end.

Definition tokenizer : NesT5Tokenizer := tokenizer_of vocab_file.




(** Training arguments with the default schedule constants. *)
Definition training_args (accumulation max epochs : Z) : TrainingArguments :=
  {| gradient_accumulation_steps := accumulation;
     max_steps := max;
     num_train_epochs := epochs;
     reg_constant_weight := None;
     reg_schedule_k := 0.0025;
     reg_schedule_b := 6.25 |}.

Definition no_run : TrainerState :=
  {| global_step := 0; steps_trained_in_current_epoch := 0;
     accumulated := O; trace := [] |}.

Definition run_of (args : TrainingArguments) (len : nat)
    (model_path : option string) : TrainerState :=
  match train args len model_path with
  | Ok st => st
  | Raise _ => no_run
  end.

(** A layer with all weights and biases 0, an encoder and a decoder for
    hidden size 101, 2 positions and 3 latent dimensions, the external
    block replaced by the identity, and a batch of one encoding. *)
Definition zero_linear (i o : nat) : Linear :=
  {| in_features := i; out_features := o;
     weight := replicate o (replicate i 0%R);
     bias := replicate o 0%R |}.

Definition encoder_101 : LatentEncoderLargeTanh_1kLatent :=
  {| shrink_tokens := zero_linear 101 100;
     shrink_sequence := zero_linear (100 * 2) 3 |}.

Definition decoder_101 : LatentDecoderLargeT5NormFF :=
  {| decode_latent := zero_linear 3 (10 * 2);
     grow_sequence := zero_linear (10 * 2) (100 * 2);
     grow_tokens := zero_linear 100 101;
     norm := fun x => Ok x |}.

Definition encoding_101 : tensor3 :=
  replicate 1 (replicate 2 (replicate 101 0.5%R)).

Definition autoencoder_101 : FullSeqAE :=
  {| encoder := encoder_101; decoder := decoder_101 |}.

End Samples.

Import Samples.

(** ** More sample inputs *)

Module MoreSamples.

Import Torch.


(** Two batches of rows of width two. *)
Definition batch_one : tensor2 := [[0.5%R; 0.5%R]].

Definition batch_two : tensor2 := [[0%R; 1%R]; [1%R; 0%R]].

End MoreSamples.

Import MoreSamples.

(** A corpus of three lines of three words, a blank line among them, and
    the files around it; a shuffle that leaves the order alone and a pickle
    that writes numbers in unary. *)

Module DatasetSamples.

Definition corpus : string :=
  file_of ["NOTEON_60 WT_10 NOTEOFF_60"; "P1 WT_12 P2"; "";
           " TR WT_20 TR  "].

Definition files : FileSystem := {[ "data/train.txt" := corpus ]}.

(** The cache file alone, the corpus gone. *)
Definition cache_only : FileSystem :=
  {[ "data/nes_seq_size_3_train.txt" := "111111,11,111111111,;11111111111,11,111111111111,;1111111111,111,1111111111,;" ]}.

Definition in_order : Shuffle :=
  {| shuffle := fun l => l; shuffle_perm := fun l => reflexivity l |}.

Fixpoint unary (n : nat) (rest : string) : string :=
  match n with
  | O => rest
  | S n' => String "1" (unary n' rest)
  end.

Definition unary_example (e : list nat) (rest : string) : string :=
  foldr (fun n r => unary n (String "," r)) (String ";" rest) e.

Definition unary_dump (examples : list (list nat)) : string :=
  foldr unary_example "" examples.

Fixpoint unary_load_go (s : string) (n : nat) (e : list nat)
    (examples : list (list nat)) : option (list (list nat)) :=
  match s with
  | EmptyString => Some (List.rev examples)
  | String a s' =>
      if Ascii.eqb a "1" then unary_load_go s' (S n) e examples
      else if Ascii.eqb a "," then unary_load_go s' O (n :: e) examples
      else if Ascii.eqb a ";" then unary_load_go s' O [] (List.rev e :: examples)
      else None
  end.

Definition unary_load (s : string) : option unpickled :=
  Examples <$> unary_load_go s O [] [].

Definition unary_pickle : Pickle.
Proof.
  refine {| dump := unary_dump; load := unary_load; load_dump := _ |}.
  assert (Hunary : forall k rest n e examples,
            unary_load_go (unary k rest) n e examples
            = unary_load_go rest (n + k) e examples).
  { induction k as [|k IH]; intros rest n e examples; simpl.
    - rewrite Nat.add_0_r. reflexivity.
    - rewrite IH. f_equal. lia. }
  assert (Hexample : forall e rest acc examples,
            unary_load_go (unary_example e rest) O acc examples
            = unary_load_go rest O [] ((List.rev acc ++ e) :: examples)).
  { induction e as [|n e IH]; intros rest acc examples; simpl.
    - rewrite app_nil_r. reflexivity.
    - rewrite Hunary. simpl. rewrite IH. simpl.
      rewrite <- app_assoc. reflexivity. }
  assert (Hdump : forall examples acc,
            unary_load_go (unary_dump examples) O [] acc
            = Some (List.rev acc ++ examples)).
  { induction examples as [|e examples IH]; intros acc; simpl.
    - rewrite app_nil_r. reflexivity.
    - rewrite Hexample, IH. simpl. rewrite <- app_assoc. reflexivity. }
  intros examples. unfold unary_load. rewrite Hdump. reflexivity.
Defined.

End DatasetSamples.

Import DatasetSamples.

(** A decoder for examples: its logits are the ids fed, and the pick at
    positions 0 and 1 is token 5, afterwards token 1. *)

Module GreedySamples.



End GreedySamples.

Import GreedySamples.

(** Logging every second optimizer step. *)

Module LoggingSamples.

Definition logging_args : LoggingArguments :=
  {| logging_steps := 2; logging_first_step := false |}.

Definition unit_loss (step : nat) : R := 1%R.

End LoggingSamples.

Import LoggingSamples.

(** * Properties *)

(** A decidable fact about concrete data, settled by running its
    decision procedure. *)
Ltac by_compute := apply (bool_decide_unpack _); vm_compute; exact I.

(** ** Python helpers *)

Section PyFacts.

Lemma bind_Ok {A B} (m : res A) (f : A -> res B) (b : B) :
  m ≫= f = Ok b -> exists a, m = Ok a /\ f a = Ok b.
Proof. destruct m as [a|e]; simpl; [eauto | discriminate]. Qed.

Lemma split_not_nil sep s : split sep s <> [].
Proof.
  destruct s as [|a s]; simpl; [discriminate|].
  destruct (Ascii.eqb a sep); [discriminate|].
  destruct (split sep s); discriminate.
Qed.

(** A string without the separator is one field. *)
Lemma split_no_sep sep s : has_char sep s = false -> split sep s = [s].
Proof.
  induction s as [|a s IH]; simpl; [reflexivity|].
  intros [Ha Hs]%orb_false_elim. rewrite Ha, (IH Hs). reflexivity.
Qed.


Lemma min_from_spec key best l :
  let b := min_from key best l in
  (b = best \/ b ∈ l) /\ key b <= key best /\ Forall (fun x => key b <= key x) l.
Proof.
  revert best; induction l as [|x l IH]; intros best; simpl.
  - split; [auto|]. split; [lia | constructor].
  - specialize (IH (if key x <? key best then x else best)).
    simpl in IH. destruct IH as (Hin & Hle & Hall).
    destruct (Z.ltb_spec (key x) (key best)) as [Hlt|Hge].
    + split; [right; destruct Hin as [-> | Hin]; [left | right; exact Hin]|].
      split; [lia|]. constructor; [exact Hle | exact Hall].
    + split; [destruct Hin as [-> | Hin]; [left; reflexivity | right; right; exact Hin]|].
      split; [exact Hle|]. constructor; [lia | exact Hall].
Qed.

(** [min] with a key returns an element whose key no element beats. *)
Lemma min_key_spec key l b :
  min_key key l = Ok b -> b ∈ l /\ Forall (fun x => key b <= key x) l.
Proof.
  destruct l as [|x l]; simpl; [discriminate|]. intros [= <-].
  destruct (min_from_spec key x l) as (Hin & Hle & Hall).
  split.
  - destruct Hin as [-> | Hin]; [left | right; exact Hin].
  - constructor; assumption.
Qed.

Lemma min_key_total key l : l <> [] -> exists b, min_key key l = Ok b.
Proof. destruct l; [congruence | simpl; eauto]. Qed.

End PyFacts.

(** ** The vocabulary dictionary *)

Section DictFacts.

Implicit Types (l : list string) (d : gmap string nat) (w : string).

(** A word outside the list keeps the entry it had. *)
Lemma dict_of_enumerate_notin i l d w :
  w ∉ l -> dict_of_enumerate i l d !! w = d !! w.
Proof.
  revert i d; induction l as [|x l IH]; intros i d Hw; simpl; [reflexivity|].
  apply not_elem_of_cons in Hw as [Hne Hw].
  rewrite IH by exact Hw. apply lookup_insert_ne. congruence.
Qed.

(** Whatever the dictionary answers for a word of the list is a position
    holding that word. *)
Lemma dict_of_enumerate_sound i l d w j :
  w ∈ l -> dict_of_enumerate i l d !! w = Some j ->
  exists k, j = (i + k)%nat /\ l !! k = Some w.
Proof.
  revert i d; induction l as [|x l IH]; intros i d Hw; simpl.
  - inversion Hw.
  - intros Hj. destruct (decide (w ∈ l)) as [Hin|Hnin].
    + destruct (IH (S i) _ Hin Hj) as (k & -> & Hk).
      exists (S k). split; [lia | exact Hk].
    + rewrite dict_of_enumerate_notin in Hj by exact Hnin.
      apply elem_of_cons in Hw as [-> | Hw]; [|contradiction].
      rewrite lookup_insert_eq in Hj. injection Hj as <-.
      exists O. split; [lia | reflexivity].
Qed.

(** Every word of the list has an entry. *)
Lemma dict_of_enumerate_complete i l d w :
  w ∈ l -> is_Some (dict_of_enumerate i l d !! w).
Proof.
  revert i d; induction l as [|x l IH]; intros i d Hw; simpl.
  - inversion Hw.
  - destruct (decide (w ∈ l)) as [Hin|Hnin]; [apply IH; exact Hin|].
    rewrite dict_of_enumerate_notin by exact Hnin.
    apply elem_of_cons in Hw as [-> | Hw]; [|contradiction].
    rewrite lookup_insert_eq. eauto.
Qed.


Lemma dict_of_enumerate_empty_iff l w :
  is_Some (dict_of_enumerate 0 l ∅ !! w) <-> w ∈ l.
Proof.
  split.
  - intros [j Hj]. destruct (decide (w ∈ l)) as [Hin|Hnin]; [exact Hin|].
    rewrite dict_of_enumerate_notin in Hj by exact Hnin.
    rewrite lookup_empty in Hj. discriminate.
  - apply dict_of_enumerate_complete.
Qed.

End DictFacts.

(** ** What [__init__] establishes *)

Section InitFacts.

Context `{SetIteration}.

Lemma init_built contents tk :
  NesT5Tokenizer_init contents = Ok tk -> built contents tk.
Proof.
  unfold NesT5Tokenizer_init.
  destruct (decide _) as [Hlen|]; [|discriminate].
  intros (amts & Hamts & [= <-])%bind_Ok.
  constructor; simpl; auto.
Qed.

Lemma collect_wait_amts_spec ws acc s :
  collect_wait_amts ws acc = Ok s ->
  (forall b, b ∈ s <->
     b ∈ acc \/ exists w, w ∈ ws /\ prefix 2 w = "WT" /\ wait_amt_of w = Ok b)
  /\ Forall (fun w => prefix 2 w = "WT" -> is_ok (wait_amt_of w)) ws.
Proof.
  revert acc; induction ws as [|x ws IH]; intros acc; simpl.
  - intros [= <-]. split; [|constructor].
    intros b; split; [auto|]. intros [Hb | (w & Hw & _)]; [exact Hb | inversion Hw].
  - destruct (decide (prefix 2 x = "WT")) as [HWT|HWT].
    + intros (n & Hn & Hrest)%bind_Ok.
      destruct (IH _ Hrest) as [Hiff Hall]. split.
      * intros b. rewrite Hiff, elem_of_union, elem_of_singleton. split.
        -- intros [[-> | Hb] | (w & Hw & Hp & Hv)]; [right | left | right].
           ++ exists x. split; [left | auto].
           ++ exact Hb.
           ++ exists w. split; [right; exact Hw | auto].
        -- intros [Hb | (w & Hw & Hp & Hv)]; [left; right; exact Hb|].
           apply elem_of_cons in Hw as [-> | Hw].
           ++ left; left. congruence.
           ++ right. exists w. auto.
      * constructor; [|exact Hall]. intros _. rewrite Hn. exact I.
    + intros Hrest. destruct (IH _ Hrest) as [Hiff Hall]. split.
      * intros b. rewrite Hiff. split.
        -- intros [Hb | (w & Hw & Hp & Hv)]; [left; exact Hb|].
           right. exists w. split; [right; exact Hw | auto].
        -- intros [Hb | (w & Hw & Hp & Hv)]; [left; exact Hb|].
           apply elem_of_cons in Hw as [-> | Hw]; [contradiction|].
           right. exists w. auto.
      * constructor; [|exact Hall]. intros; contradiction.
Qed.


(** A word is in the dictionary exactly when it is in the vocabulary, and
    the dictionary points at a position that holds it. *)
Lemma built_lookup contents tk w :
  built contents tk ->
  (is_Some (vocab2index tk !! w) <-> w ∈ index2vocab tk)
  /\ forall i, vocab2index tk !! w = Some i -> index2vocab tk !! i = Some w.
Proof.
  intros B. rewrite (built_vocab2index _ _ B). split.
  - apply dict_of_enumerate_empty_iff.
  - intros i Hi.
    assert (Hin : w ∈ index2vocab tk)
      by (apply dict_of_enumerate_empty_iff; eauto).
    destruct (dict_of_enumerate_sound _ _ _ _ _ Hin Hi) as (k & -> & Hk).
    exact Hk.
Qed.

(** The registered wait amounts are those of the vocabulary words that
    start with [WT]. *)
Lemma built_buckets contents tk b :
  built contents tk ->
  b ∈ wait_amts tk <->
  exists w, w ∈ index2vocab tk /\ prefix 2 w = "WT" /\ wait_amt_of w = Ok b.
Proof.
  intros B.
  destruct (collect_wait_amts_spec _ _ _ (built_wait_amts _ _ B)) as [Hiff _].
  rewrite Hiff. split; [|auto]. intros [Hb | Hw]; [|exact Hw].
  apply not_elem_of_empty in Hb. contradiction.
Qed.

End InitFacts.

(** ** Lookup and tokenization *)

Section TokenizerFacts.

Context `{SetIteration}.



Lemma get_index_exact contents tk w i :
  built contents tk -> vocab2index tk !! w = Some i -> get_index tk w = Ok i.
Proof. intros _ Hi. unfold get_index. rewrite Hi. reflexivity. Qed.

Lemma get_index_in contents tk w :
  built contents tk -> w ∈ index2vocab tk ->
  exists i, get_index tk w = Ok i /\ vocab2index tk !! w = Some i
            /\ index2vocab tk !! i = Some w.
Proof.
  intros B Hw. destruct (built_lookup contents tk w B) as [Hiff Hpos].
  apply Hiff in Hw as [i Hi]. exists i.
  split; [eapply get_index_exact; eauto|]. split; [exact Hi | auto].
Qed.





End TokenizerFacts.

(** ** Claims about the tokenizer *)

(** C8. Tokenize round trip: [tokenize] splits the text at single spaces
    and looks each token up in order; when every token is a vocabulary
    entry, reading the returned ids back through [index2vocab] gives the
    tokens again. *)
Theorem tokenize_roundtrip `{SetIteration} (contents : string)
    (tk : NesT5Tokenizer) (txt : string) :
  NesT5Tokenizer_init contents = Ok tk ->
  Forall (fun w => w ∈ index2vocab tk) (split " " txt) ->
  exists ids,
    tokenize tk txt = Ok ids
    /\ length ids = length (split " " txt)
    /\ (fun i => index2vocab tk !! i) <$> ids = Some <$> split " " txt.
Proof.
  intros B%init_built Hall. unfold tokenize.
  induction Hall as [|w ws Hw _ IH]; simpl.
  - exists []. auto.
  - destruct (get_index_in contents tk w B Hw) as (i & Hi & _ & Hpos).
    destruct IH as (ids & Hids & Hlen & Hback).
    exists (i :: ids). rewrite Hi; simpl. rewrite Hids; simpl.
    split; [reflexivity|]. split; [simpl; congruence|].
    rewrite Hpos. f_equal. exact Hback.
Qed.

Lemma tokenize_roundtrip_witness :
  NesT5Tokenizer_init (H := elements_iteration) vocab_file = Ok tokenizer
  /\ exists ids,
       tokenize (H := elements_iteration) tokenizer "NOTEON_60 WT_10 P1 NOTEOFF_60"
       = Ok ids
       /\ length ids = 4%nat
       /\ (fun i => index2vocab tokenizer !! i) <$> ids
          = [Some "NOTEON_60"; Some "WT_10"; Some "P1"; Some "NOTEOFF_60"].
Proof.
  split; [vm_compute; reflexivity|].
  apply (@tokenize_roundtrip elements_iteration vocab_file tokenizer
           "NOTEON_60 WT_10 P1 NOTEOFF_60").
  - vm_compute; reflexivity.
  - vm_compute. repeat constructor.
Defined.



(** The spec's example: with the buckets 10 and 20 registered, 14 goes to
    the id of [WT_10] and 16 to the id of [WT_20]. *)
Example get_index_between_buckets :
  elements (wait_amts tokenizer) = [10; 20]
  /\ index2vocab tokenizer !! 2%nat = Some "WT_10"
  /\ index2vocab tokenizer !! 3%nat = Some "WT_20"
  /\ get_index (H := elements_iteration) tokenizer "WT_14" = Ok 2%nat
  /\ get_index (H := elements_iteration) tokenizer "WT_16" = Ok 3%nat
  /\ get_index (H := elements_iteration) tokenizer "WT_010" = Ok 2%nat.
Proof. vm_compute. repeat split. Qed.


(** ** The vocabulary built by [__init__] *)

Section VocabularyFacts.

Context `{SetIteration}.

Lemma iter_str_elem (s : gset string) w : w ∈ iter_str s <-> w ∈ s.
Proof. rewrite (iter_str_perm s). apply elem_of_elements. Qed.




End VocabularyFacts.




(** ** The regularisation weight *)

Import Torch Trainer.

Section ScheduleFacts.

Local Open Scope R_scope.





End ScheduleFacts.



(** With the default constants [k = 0.0025] and [b = 6.25] the weight
    starts below one hundredth. *)
Lemma default_schedule_starts_near_zero :
  (_regulariser_loss_weight_schedule
     {| gradient_accumulation_steps := 1; max_steps := 0;
        num_train_epochs := 3; reg_constant_weight := None;
        reg_schedule_k := 0.0025; reg_schedule_b := 6.25 |} 0 < / 100)%R.
Proof.
  unfold _regulariser_loss_weight_schedule, sigmoid; simpl.
  replace (- (0 * 0.0025 - 6.25))%R with 6.25%R by lra.
  assert (H1 : (1.78125 <= exp 0.78125)%R)
    by (pose proof (exp_ineq1_le 0.78125); lra).
  assert (H2 : (exp 1.5625 = exp 0.78125 * exp 0.78125)%R)
    by (rewrite <- exp_plus; f_equal; lra).
  assert (H3 : (exp 3.125 = exp 1.5625 * exp 1.5625)%R)
    by (rewrite <- exp_plus; f_equal; lra).
  assert (H4 : (exp 6.25 = exp 3.125 * exp 3.125)%R)
    by (rewrite <- exp_plus; f_equal; lra).
  assert (G2 : (3.17 <= exp 1.5625)%R) by nra.
  assert (G3 : (10.04 <= exp 3.125)%R) by nra.
  assert (G4 : (100 <= exp 6.25)%R) by nra.
  unfold Rdiv. rewrite Rmult_1_l. apply Rinv_lt_contravar; lra.
Qed.

(** ** The training loop *)

Section LoopFacts.

Variable args : TrainingArguments.
Variable len : nat.

Local Abbreviation N := (gradient_accumulation_steps args).

(** The three ways one turn of the inner loop goes. *)
Lemma train_step_cases epoch step st :
  (0 < steps_trained_in_current_epoch st
   /\ train_step args len epoch step st
      = ({| global_step := global_step st;
            steps_trained_in_current_epoch :=
              steps_trained_in_current_epoch st - 1;
            accumulated := accumulated st;
            trace := trace st ++ [Skipped epoch step] |}, false))
  \/ (steps_trained_in_current_epoch st <= 0
      /\ at_boundary args len step = false
      /\ exists stop,
          train_step args len epoch step st
          = ({| global_step := global_step st;
                steps_trained_in_current_epoch :=
                  steps_trained_in_current_epoch st;
                accumulated := S (accumulated st);
                trace := trace st ++ [Backward epoch step] |}, stop))
  \/ (steps_trained_in_current_epoch st <= 0
      /\ at_boundary args len step = true
      /\ exists stop,
          train_step args len epoch step st
          = ({| global_step := global_step st + 1;
                steps_trained_in_current_epoch :=
                  steps_trained_in_current_epoch st;
                accumulated := O;
                trace := (trace st ++ [Backward epoch step])
                         ++ [OptimizerStep epoch step (S (accumulated st))] |},
             stop)).
Proof.
  unfold train_step. destruct (decide _) as [Hskip|Hskip].
  - left. auto.
  - right. destruct (at_boundary args len step) eqn:Hb; simpl.
    + right. split; [lia|]. split; [reflexivity|]. eauto.
    + left. split; [lia|]. split; [reflexivity|]. eauto.
Qed.

(** Leaving the inner loop by [break] is what the outer loop tests. *)
Lemma train_step_stop epoch step st :
  snd (train_step args len epoch step st) = true ->
  past_max_steps args (fst (train_step args len epoch step st)) = true.
Proof.
  unfold train_step. destruct (decide _); simpl; [discriminate | auto].
Qed.

(** A property that every turn keeps holds after the loops. *)
Lemma train_epoch_preserves (Q : TrainerState -> Prop) epoch steps st :
  (forall step st, Q st -> Q (fst (train_step args len epoch step st))) ->
  Q st -> Q (train_epoch args len epoch steps st).
Proof.
  intros Hstep. revert st; induction steps as [|step rest IH]; intros st HQ;
    simpl; [exact HQ|].
  specialize (Hstep step st HQ).
  destruct (train_step args len epoch step st) as [st' stop]; simpl in *.
  destruct stop; [exact Hstep | apply IH; exact Hstep].
Qed.

Lemma train_epochs_preserves (Q : TrainerState -> Prop) epochs st :
  (forall epoch step st, Q st -> Q (fst (train_step args len epoch step st))) ->
  Q st -> Q (train_epochs args len epochs st).
Proof.
  intros Hstep. revert st; induction epochs as [|epoch rest IH]; intros st HQ;
    simpl; [exact HQ|].
  assert (HQ' : Q (train_epoch args len epoch (seq 0 len) st))
    by (apply train_epoch_preserves; auto).
  destruct (past_max_steps args _); [exact HQ' | apply IH; exact HQ'].
Qed.





End LoopFacts.

(** ** Resuming from a checkpoint *)

Section ResumedRun.

Variable args : TrainingArguments.
Variable len : nat.




End ResumedRun.

Section ResumeFacts.

Variable args : TrainingArguments.
Variable len : nat.

Local Abbreviation N := (gradient_accumulation_steps args).

Hypothesis N_pos : 0 < N.
Hypothesis N_le_len : N <= Z.of_nat len.




End ResumeFacts.



(** A checkpoint taken in the middle of an epoch: 7 of 10 batches per epoch
    with an accumulation of 2 puts step 13 six batches into epoch 2. *)
Example resume_mid_epoch :
  let args := {| gradient_accumulation_steps := 2; max_steps := 0;
                 num_train_epochs := 3; reg_constant_weight := None;
                 reg_schedule_k := 0.0025; reg_schedule_b := 6.25 |} in
  resume args 10 (Some "run-1/checkpoint-13/") = Ok (13, 2, 6)
  /\ (exists st, train args 10 (Some "run-1/checkpoint-13/") = Ok st
      /\ global_step st = 15
      /\ trace st = [Skipped 2 0; Skipped 2 1; Skipped 2 2; Skipped 2 3;
                     Skipped 2 4; Skipped 2 5;
                     Backward 2 6; Backward 2 7; OptimizerStep 2 7 2;
                     Backward 2 8; Backward 2 9; OptimizerStep 2 9 2]).
Proof.
  intros args. split; [vm_compute; reflexivity|].
  eexists. split; [vm_compute; reflexivity|]. split; reflexivity.
Qed.

(** With fewer batches than the accumulation factor, [len // N] is 0 and
    the resumption divides by it. *)
Example resume_short_dataloader :
  let args := {| gradient_accumulation_steps := 4; max_steps := 0;
                 num_train_epochs := 3; reg_constant_weight := None;
                 reg_schedule_k := 0.0025; reg_schedule_b := 6.25 |} in
  resume args 3 (Some "output/checkpoint-8") = Raise ZeroDivisionError
  /\ train args 3 (Some "output/checkpoint-8") = Raise ZeroDivisionError.
Proof. intros args. split; vm_compute; reflexivity. Qed.

(** ** Gradient accumulation *)

Section TraceFacts.

Lemma pending_snoc tr ev :
  pending (tr ++ [ev])
  = match ev with
    | Backward _ _ => S (pending tr)
    | OptimizerStep _ _ _ => O
    | Skipped _ _ => pending tr
    end.
Proof. unfold pending. rewrite fold_left_app. reflexivity. Qed.

(** Where a cut of [tr ++ [x]] falls. *)
Lemma snoc_split {A} (tr pre post : list A) (x y : A) :
  tr ++ [x] = pre ++ y :: post ->
  (post = [] /\ pre = tr /\ y = x)
  \/ exists post', post = post' ++ [x] /\ tr = pre ++ y :: post'.
Proof.
  intros E. destruct post as [|z post _] using rev_ind.
  - left. apply app_inj_tail in E as [-> ->]. auto.
  - right. exists post.
    change (pre ++ y :: post ++ [z]) with (pre ++ (y :: post) ++ [z]) in E.
    rewrite app_assoc in E. apply app_inj_tail in E as [-> ->]. auto.
Qed.

Variable args : TrainingArguments.
Variable len : nat.

(** An optimizer step stands right after the backward pass of its own
    micro-step, which is on the boundary, and takes the gradients pending
    before it. *)
Lemma run_trace_optimizer_step tr :
  run_trace args len tr ->
  forall pre epoch step c post,
    tr = pre ++ OptimizerStep epoch step c :: post ->
    at_boundary args len step = true
    /\ (exists pre', pre = pre' ++ [Backward epoch step])
    /\ c = pending pre.
Proof.
  induction 1 as [|tr e0 s0 _ IH|tr e0 s0 _ IH Hb|tr e0 s0 _ IH Hb];
    intros pre epoch step c post E.
  - destruct pre; discriminate.
  - apply snoc_split in E as [(_ & _ & [=]) | (post' & _ & E)]. eauto.
  - apply snoc_split in E as [(_ & _ & [=]) | (post' & _ & E)]. eauto.
  - apply snoc_split in E as [(_ & -> & [= -> -> ->]) | (post' & _ & E)].
    + split; [exact Hb|]. split; [eauto|].
      rewrite pending_snoc. reflexivity.
    + apply snoc_split in E as [(_ & _ & [=]) | (post'' & _ & E)]. eauto.
Qed.

(** A backward pass on the boundary is followed at once by the optimizer
    step of its micro-step. *)
Lemma run_trace_boundary tr :
  run_trace args len tr ->
  forall pre epoch step post,
    tr = pre ++ Backward epoch step :: post ->
    at_boundary args len step = true ->
    exists c post', post = OptimizerStep epoch step c :: post'.
Proof.
  induction 1 as [|tr e0 s0 _ IH|tr e0 s0 _ IH Hb|tr e0 s0 _ IH Hb];
    intros pre epoch step post E Hon.
  - destruct pre; discriminate.
  - apply snoc_split in E as [(_ & _ & [=]) | (post' & -> & E)].
    destruct (IH _ _ _ _ E Hon) as (c & p & ->). simpl. eauto.
  - apply snoc_split in E as [(_ & _ & [= -> ->]) | (post' & -> & E)].
    + congruence.
    + destruct (IH _ _ _ _ E Hon) as (c & p & ->). simpl. eauto.
  - apply snoc_split in E as [(_ & _ & [=]) | (post' & -> & E)].
    apply snoc_split in E as [(-> & _ & [= -> ->]) | (post'' & -> & E)].
    + simpl. eauto.
    + destruct (IH _ _ _ _ E Hon) as (c & p & ->). simpl. eauto.
Qed.

(** The loop writes such traces, and its counter is the pending count. *)
Lemma tracks_step epoch step st :
  tracks args len st ->
  tracks args len (fst (train_step args len epoch step st)).
Proof.
  intros [Hrun Hacc].
  destruct (train_step_cases args len epoch step st)
    as [[_ ->] | [(_ & Hb & stop & ->) | (_ & Hb & stop & ->)]];
    split; simpl.
  - constructor; assumption.
  - rewrite pending_snoc. exact Hacc.
  - constructor; assumption.
  - rewrite pending_snoc. congruence.
  - rewrite Hacc. constructor; assumption.
  - rewrite pending_snoc. reflexivity.
Qed.

End TraceFacts.

Section CountFacts.

Variable args : TrainingArguments.
Variable len : nat.

Local Abbreviation N := (gradient_accumulation_steps args).

Lemma mod_succ_off G s :
  0 < G -> (s + 1) mod G <> 0 -> (s + 1) mod G = s mod G + 1.
Proof.
  intros HG Hne. pose proof (Z.mod_pos_bound s G HG) as Hr.
  pose proof (Z.div_mod s G ltac:(lia)) as Hs.
  destruct (decide (s mod G + 1 = G)) as [Heq|Hlt].
  - exfalso. apply Hne.
    symmetry. apply (Z.mod_unique _ _ (s / G + 1)); [left; lia | lia].
  - symmetry. apply (Z.mod_unique _ _ (s / G)); [left; lia | lia].
Qed.

Lemma mod_succ_on G s : 0 < G -> (s + 1) mod G = 0 -> s mod G = G - 1.
Proof.
  intros HG Hz. pose proof (Z.mod_pos_bound s G HG) as Hr.
  destruct (decide (s mod G + 1 = G)) as [Heq|Hlt]; [lia|].
  pose proof (Z.div_mod s G ltac:(lia)) as Hs.
  assert ((s + 1) mod G = s mod G + 1)
    by (symmetry; apply (Z.mod_unique _ _ (s / G)); [left; lia | lia]).
  lia.
Qed.

(** The number of backward passes between optimizer steps when the
    accumulation factor divides the number of batches, or exceeds it. *)
Variable G : Z.
Hypothesis G_pos : 0 < G.
Hypothesis G_divides : Z.of_nat len mod G = 0.
Hypothesis G_boundary :
  forall step, (step < len)%nat ->
    at_boundary args len step = true <-> (Z.of_nat step + 1) mod G = 0.

Lemma counted_step epoch step st :
  (step < len)%nat -> counted G step st ->
  counted G (S step) (fst (train_step args len epoch step st)).
Proof.
  intros Hlt (Hacc & Hzero & Hskip & Hall).
  destruct (train_step_cases args len epoch step st)
    as [[Hpos ->] | [(Hle & Hb & stop & ->) | (Hle & Hb & stop & ->)]];
    unfold counted; simpl.
  - split; [rewrite Hacc; f_equal; lia|]. split; [auto|]. split; [lia|].
    apply Forall_app. split; [exact Hall | repeat constructor].
  - assert (Hs0 : steps_trained_in_current_epoch st = 0) by lia.
    rewrite Hs0, Z.add_0_r in *.
    assert (Hoff : (Z.of_nat step + 1) mod G <> 0).
    { intros Hon. apply (G_boundary step Hlt) in Hon. congruence. }
    split; [|split; [lia|split; [lia|]]].
    + rewrite (Nat2Z.inj_succ step), <- Z.add_1_r.
      rewrite (mod_succ_off G _ G_pos Hoff). lia.
    + apply Forall_app. split; [exact Hall | repeat constructor].
  - assert (Hs0 : steps_trained_in_current_epoch st = 0) by lia.
    rewrite Hs0, Z.add_0_r in *.
    assert (Hon : (Z.of_nat step + 1) mod G = 0)
      by (apply (G_boundary step Hlt); exact Hb).
    split; [|split; [lia|split; [lia|]]].
    + rewrite (Nat2Z.inj_succ step), <- Z.add_1_r. rewrite Hon. reflexivity.
    + rewrite <- app_assoc. apply Forall_app. split; [exact Hall|].
      constructor; [exact I|]. constructor; [|constructor].
      simpl. pose proof (mod_succ_on G _ G_pos Hon). lia.
Qed.

(** An invariant indexed by the micro-step holds after the inner loop,
    at the index where the loop stopped. *)
Lemma train_epoch_indexed (P : nat -> TrainerState -> Prop) epoch k :
  forall s0 st,
    (forall step st, (step < s0 + k)%nat -> P step st ->
       P (S step) (fst (train_step args len epoch step st))) ->
    P s0 st ->
    (exists s, P s (train_epoch args len epoch (seq s0 k) st))
    /\ (past_max_steps args (train_epoch args len epoch (seq s0 k) st) = false ->
        P (s0 + k)%nat (train_epoch args len epoch (seq s0 k) st)).
Proof.
  induction k as [|k IH]; intros s0 st Hstep HP.
  - simpl. rewrite Nat.add_0_r. eauto.
  - cbn [seq train_epoch].
    pose proof (Hstep s0 st ltac:(lia) HP) as HP1.
    pose proof (train_step_stop args len epoch s0 st) as Hstop.
    destruct (train_step args len epoch s0 st) as [st1 stop]; simpl in *.
    destruct stop.
    + split; [eauto|]. rewrite Hstop by reflexivity. discriminate.
    + replace (s0 + S k)%nat with (S s0 + k)%nat by lia.
      apply IH; [|exact HP1].
      intros step st' Hlt. apply Hstep. lia.
Qed.

Lemma counted_epochs epochs st :
  counted G 0 st ->
  Forall (takes_G G) (trace (train_epochs args len epochs st)).
Proof.
  revert st; induction epochs as [|epoch rest IH]; intros st Hc.
  - destruct Hc as (_ & _ & _ & Hall). exact Hall.
  - cbn [train_epochs].
    destruct (train_epoch_indexed (counted G) epoch len 0 st)
      as [[s Hs] Hend].
    { intros step st' Hlt. apply counted_step. lia. }
    { exact Hc. }
    destruct (past_max_steps args _) eqn:Hpast.
    + destruct Hs as (_ & _ & _ & Hall). exact Hall.
    + apply IH. specialize (Hend eq_refl). simpl in Hend.
      destruct Hend as (Hacc & Hzero & Hskip & Hall).
      split; [|auto]. rewrite Hacc.
      rewrite (Z.add_mod (Z.of_nat len)), G_divides by lia.
      rewrite !Z.add_0_l. apply Z.mod_mod. lia.
Qed.

End CountFacts.

Section TrainFacts.

Variable args : TrainingArguments.
Variable len : nat.

Local Abbreviation N := (gradient_accumulation_steps args).

Lemma at_boundary_iff step :
  at_boundary args len step = true <->
  (Z.of_nat step + 1) mod N = 0
  \/ (Z.of_nat len <= N /\ Z.of_nat step + 1 = Z.of_nat len).
Proof.
  unfold at_boundary.
  rewrite orb_true_iff, andb_true_iff, !bool_decide_eq_true. reflexivity.
Qed.

(** What [train] runs when it does not raise. *)
Lemma train_inversion model_path st :
  train args len model_path = Ok st ->
  N <> 0
  /\ exists epochs gs skip,
       st = train_epochs args len epochs
              {| global_step := gs; steps_trained_in_current_epoch := skip;
                 accumulated := O; trace := [] |}
       /\ (skip = 0
           \/ exists n, Z.of_nat len / N <> 0 /\ Z.of_nat len <> 0
                        /\ skip = (n * N) mod Z.of_nat len).
Proof.
  unfold train. intros (epochs & Hep & Hrest)%bind_Ok.
  assert (HN : N <> 0).
  { unfold planned_epochs, floordiv in Hep.
    destruct (decide (N = 0)); [discriminate | assumption]. }
  split; [exact HN|].
  apply bind_Ok in Hrest as ([[gs e0] skip] & Hres & [= <-]).
  exists (range e0 epochs), gs, skip. split; [reflexivity|].
  unfold resume in Hres. destruct model_path as [path|]; [|left; congruence].
  destruct (checkpoint_step path) as [n|]; [|left; congruence].
  right. exists n. unfold floordiv, pymod in Hres.
  destruct (decide (N = 0)); [contradiction|]. simpl in Hres.
  destruct (decide (Z.of_nat len / N = 0)); [discriminate|]. simpl in Hres.
  destruct (decide (Z.of_nat len = 0)); [discriminate|]. simpl in Hres.
  injection Hres as _ _ <-. auto.
Qed.

Lemma train_epochs_no_batches epochs st :
  len = O -> train_epochs args len epochs st = st.
Proof.
  intros ->. induction epochs as [|epoch rest IH]; simpl; [reflexivity|].
  destruct (past_max_steps args st); auto.
Qed.

Lemma train_tracks model_path st :
  train args len model_path = Ok st -> tracks args len st.
Proof.
  intros (_ & epochs & gs & skip & -> & _)%train_inversion.
  apply train_epochs_preserves.
  - intros; apply tracks_step; assumption.
  - split; [constructor | reflexivity].
Qed.

(** With [N] dividing the number of batches, or above it, every optimizer
    step takes [min(N, len)] backward passes. *)
Lemma train_counts model_path st :
  train args len model_path = Ok st ->
  0 < N -> Z.of_nat len mod N = 0 \/ Z.of_nat len <= N ->
  Forall (takes_G (Z.min N (Z.of_nat len))) (trace st).
Proof.
  intros (_ & epochs & gs & skip & -> & Hskip)%train_inversion HN Hcond.
  destruct (decide (len = O)) as [Hz|Hnz].
  { rewrite train_epochs_no_batches by exact Hz. constructor. }
  set (G := Z.min N (Z.of_nat len)).
  assert (HG : 0 < G) by (unfold G; lia).
  assert (Hdiv : Z.of_nat len mod G = 0).
  { unfold G. destruct (Z.min_spec N (Z.of_nat len)) as [[Hlt ->] | [Hle ->]].
    - destruct Hcond as [Hm | Hle]; [exact Hm | lia].
    - apply Z.mod_same. lia. }
  apply (counted_epochs args len G HG Hdiv).
  - (* the boundary test is divisibility by [G] *)
    intros step Hstep. rewrite at_boundary_iff. unfold G.
    destruct (Z.min_spec N (Z.of_nat len)) as [[Hlt ->] | [Hle ->]].
    + split; [|auto]. intros [Hm | [Hle _]]; [exact Hm | lia].
    + destruct (decide (Z.of_nat step + 1 = Z.of_nat len)) as [Heq|Hne].
      * rewrite Heq, Z.mod_same by lia. split; [auto|]. intros _. right. lia.
      * rewrite (Z.mod_small (Z.of_nat step + 1) (Z.of_nat len)) by lia.
        split; [|lia]. intros [Hm | [_ Heq]]; [|lia].
        destruct (decide (Z.of_nat len = N)) as [E|E].
        -- rewrite <- E in Hm. rewrite Z.mod_small in Hm by lia. lia.
        -- rewrite Z.mod_small in Hm by lia. lia.
  - (* the state [train] starts from *)
    unfold counted. simpl. split; [|split; [|split; [|constructor]]].
    + destruct Hskip as [-> | (n & Hq & Hl & ->)].
      * rewrite Z.mod_0_l by lia. reflexivity.
      * assert (HNlen : N <= Z.of_nat len).
        { destruct (Z_lt_le_dec (Z.of_nat len) N) as [Hlt|]; [|assumption].
          rewrite Z.div_small in Hq by lia. contradiction. }
        assert (Hm : Z.of_nat len mod N = 0).
        { destruct Hcond as [Hm | Hle]; [exact Hm|].
          replace (Z.of_nat len) with N by lia. apply Z.mod_same. lia. }
        replace G with N by (unfold G; lia).
        change (Z.of_nat 0) with 0. rewrite Z.add_0_l.
        rewrite Z.mod_mod_divide by (apply Z.mod_divide; [lia | exact Hm]).
        rewrite Z.mod_mul by lia. reflexivity.
    + destruct Hskip as [-> | _]; [lia | reflexivity].
    + destruct Hskip as [-> | (n & _ & Hl & ->)]; [lia|].
      apply Z.mod_pos_bound. lia.
Qed.

End TrainFacts.

(** C1 (amended). In the trace of [train], an optimizer step occurs only
    right after the backward pass of a micro-step [s] with
    [(s + 1) % N == 0], or with [s + 1 == len] when [len <= N]; every trained
    micro-step of that kind is followed by one; and the optimizer step takes
    the backward passes done since the previous one.  When [N] divides the
    number of batches or is at least that number, every optimizer step takes
    exactly [min(N, len)] backward passes. *)
Theorem optimizer_step_on_boundary (args : TrainingArguments) (len : nat)
    (model_path : option string) (st : TrainerState) :
  train args len model_path = Ok st ->
  (forall pre epoch step c post,
     trace st = pre ++ OptimizerStep epoch step c :: post ->
     ((Z.of_nat step + 1) mod gradient_accumulation_steps args = 0
      \/ (Z.of_nat len <= gradient_accumulation_steps args
          /\ Z.of_nat step + 1 = Z.of_nat len))
     /\ (exists pre', pre = pre' ++ [Backward epoch step])
     /\ c = pending pre)
  /\ (forall pre epoch step post,
        trace st = pre ++ Backward epoch step :: post ->
        (Z.of_nat step + 1) mod gradient_accumulation_steps args = 0
        \/ (Z.of_nat len <= gradient_accumulation_steps args
            /\ Z.of_nat step + 1 = Z.of_nat len) ->
        exists c post', post = OptimizerStep epoch step c :: post')
  /\ (0 < gradient_accumulation_steps args ->
      Z.of_nat len mod gradient_accumulation_steps args = 0
      \/ Z.of_nat len <= gradient_accumulation_steps args ->
      forall pre epoch step c post,
        trace st = pre ++ OptimizerStep epoch step c :: post ->
        Z.of_nat (pending pre)
        = Z.min (gradient_accumulation_steps args) (Z.of_nat len)).
Proof.
  intros Htrain. destruct (train_tracks args len _ _ Htrain) as [Hrun _].
  split; [|split].
  - intros pre epoch step c post E.
    destruct (run_trace_optimizer_step args len _ Hrun _ _ _ _ _ E)
      as (Hb & Hpre & Hc).
    apply at_boundary_iff in Hb. auto.
  - intros pre epoch step post E Hb.
    apply at_boundary_iff in Hb.
    exact (run_trace_boundary args len _ Hrun _ _ _ _ E Hb).
  - intros HN Hcond pre epoch step c post E.
    destruct (run_trace_optimizer_step args len _ Hrun _ _ _ _ _ E)
      as (_ & _ & <-).
    pose proof (train_counts args len _ _ Htrain HN Hcond) as Hall.
    rewrite E in Hall. apply Forall_app in Hall as [_ Hall].
    inversion Hall as [|? ? Hc _]. exact Hc.
Qed.

Lemma optimizer_step_on_boundary_witness :
  train (training_args 4 0 2) 8 None = Ok (run_of (training_args 4 0 2) 8 None)
  /\ optimizer_steps (trace (run_of (training_args 4 0 2) 8 None)) = 4%nat
  /\ forall pre epoch step c post,
       trace (run_of (training_args 4 0 2) 8 None)
       = pre ++ OptimizerStep epoch step c :: post ->
       Z.of_nat (pending pre) = 4.
Proof.
  assert (Htrain : train (training_args 4 0 2) 8 None
                   = Ok (run_of (training_args 4 0 2) 8 None))
    by (vm_compute; reflexivity).
  split; [exact Htrain|]. split; [vm_compute; reflexivity|].
  destruct (optimizer_step_on_boundary _ _ _ _ Htrain) as (_ & _ & Hcount).
  apply Hcount; [simpl; lia | left; reflexivity].
Defined.

(** C1 as stated fails.  With [N = 4]: over 3 batches the optimizer steps
    at the third micro-step of every epoch, on 3 backward passes; over 5
    batches the fifth backward pass of the first epoch stays in the
    gradients, and the optimizer step of the second epoch takes 5. *)
Lemma optimizer_step_counterexample :
  (train (training_args 4 0 2) 3 None = Ok (run_of (training_args 4 0 2) 3 None)
   /\ trace (run_of (training_args 4 0 2) 3 None)
      = [Backward 0 0; Backward 0 1; Backward 0 2; OptimizerStep 0 2 3;
         Backward 1 0; Backward 1 1; Backward 1 2; OptimizerStep 1 2 3])
  /\ (train (training_args 4 0 2) 5 None = Ok (run_of (training_args 4 0 2) 5 None)
      /\ trace (run_of (training_args 4 0 2) 5 None)
         = [Backward 0 0; Backward 0 1; Backward 0 2; Backward 0 3;
            OptimizerStep 0 3 4; Backward 0 4;
            Backward 1 0; Backward 1 1; Backward 1 2; Backward 1 3;
            OptimizerStep 1 3 5; Backward 1 4]).
Proof. repeat split; vm_compute; reflexivity. Qed.

(** Resuming in the middle of an accumulation group: 5 batches, [N = 2],
    checkpoint 3.  One batch is skipped and the next optimizer step takes a
    single backward pass. *)
Example resume_splits_group :
  train (training_args 2 0 2) 5 (Some "out/checkpoint-3")
  = Ok (run_of (training_args 2 0 2) 5 (Some "out/checkpoint-3"))
  /\ trace (run_of (training_args 2 0 2) 5 (Some "out/checkpoint-3"))
     = [Skipped 1 0; Backward 1 1; OptimizerStep 1 1 1;
        Backward 1 2; Backward 1 3; OptimizerStep 1 3 2; Backward 1 4].
Proof. split; vm_compute; reflexivity. Qed.

(** ** The kernel and the MMD *)

Section KernelFacts.

Local Open Scope R_scope.

Lemma mean_defined (l : list R) : l <> [] -> exists m, mean l = Some m.
Proof. destruct l; [congruence | simpl; eauto]. Qed.

Lemma width_shape2 n d x : (1 <= n)%nat -> shape2 n d x -> width x = d.
Proof.
  intros Hn [Hlen Hrows]. destruct x as [|row x]; simpl in *; [lia|].
  inversion Hrows; assumption.
Qed.

(** Every entry of the kernel of two batches of rows of one width [d >= 1]
    is a number. *)
Lemma kernel_entries n m d x y :
  (1 <= n)%nat -> (1 <= d)%nat -> shape2 n d x -> shape2 m d y ->
  exists K,
    _compute_kernel x y = Ok K
    /\ length K = n
    /\ Forall (fun row => length row = m /\ Forall is_Some row) K.
Proof.
  intros Hn Hd Hx Hy. unfold _compute_kernel.
  rewrite (width_shape2 n d x Hn Hx).
  destruct Hx as [Hxlen Hxrows], Hy as [Hylen Hyrows].
  destruct (decide _) as [_|Hbad]; [|exfalso; apply Hbad; right; exact Hyrows].
  eexists. split; [reflexivity|]. split; [rewrite length_fmap; exact Hxlen|].
  apply Forall_fmap, Forall_forall. intros xi Hxi. simpl.
  split; [rewrite length_fmap; exact Hylen|].
  apply Forall_fmap, Forall_forall. intros yj Hyj. simpl.
  rewrite Forall_forall in Hxrows, Hyrows.
  specialize (Hxrows xi Hxi). specialize (Hyrows yj Hyj).
  destruct xi as [|a xi]; [simpl in Hxrows; lia|].
  destruct yj as [|b yj]; [simpl in Hyrows; lia|].
  simpl. eauto.
Qed.

(** The mean of a kernel with at least one entry, all of them numbers. *)
Lemma mean_all_defined (K : list (list (option R))) n m :
  (1 <= n)%nat -> (1 <= m)%nat -> length K = n ->
  Forall (fun row => length row = m /\ Forall is_Some row) K ->
  exists a, mean_all K = Some a.
Proof.
  intros Hn Hm Hlen Hrows. unfold mean_all.
  assert (Hsome : Forall is_Some (concat K)).
  { apply Forall_concat. eapply Forall_impl; [exact Hrows|].
    intros row [_ H]. exact H. }
  assert (Hne : concat K <> []).
  { destruct K as [|row K]; [simpl in Hlen; lia|].
    apply Forall_cons in Hrows as [[Hrow _] _].
    destruct row; [simpl in Hrow; lia | discriminate]. }
  destruct (mapM (fun o : option R => o) (concat K)) as [l|] eqn:El.
  - simpl. apply mean_defined. intros ->.
    apply mapM_Some in El. inversion El as [E|]. auto.
  - exfalso. assert (Hm' : is_Some (mapM (fun o : option R => o) (concat K))).
    { apply mapM_is_Some. exact Hsome. }
    rewrite El in Hm'. destruct Hm' as [? ?]. discriminate.
Qed.

End KernelFacts.

(** C2. For a batch [x] of at least one latent vector of at least one
    dimension, the MMD of [x] against itself, as [_compute_mmd] computes it
    from [_compute_kernel], is 0 (over the reals, where the three means
    are numbers and cancel). *)
Theorem mmd_self_zero (n d : nat) (x : tensor2) :
  (1 <= n)%nat -> (1 <= d)%nat -> shape2 n d x ->
  _compute_mmd x x = Ok (Some 0%R).
Proof.
  intros Hn Hd Hx. unfold _compute_mmd.
  destruct (kernel_entries n n d x x Hn Hd Hx Hx) as (K & -> & Hlen & Hrows).
  simpl.
  destruct (mean_all_defined K n n Hn Hn Hlen Hrows) as [a ->]. simpl.
  do 2 f_equal. lra.
Qed.

Lemma mmd_self_zero_witness :
  _compute_mmd [[0.5; -0.25]; [0.75; 0]; [-1; 0.125]]%R
               [[0.5; -0.25]; [0.75; 0]; [-1; 0.125]]%R
  = Ok (Some 0%R).
Proof.
  apply (mmd_self_zero 3 2); [lia | lia |].
  split; [reflexivity | repeat constructor].
Defined.

(** Without any latent vector the means are means of nothing. *)
Example mmd_empty_batch : _compute_mmd [] [] = Ok None.
Proof. reflexivity. Qed.

(** ** Shapes through the layers *)

Section ShapeFacts.

Local Open Scope R_scope.

(** [map_res] over inputs that all succeed with an output of some kind. *)
Lemma map_res_shape {A B} (f : A -> res B) (P : A -> Prop) (Q : B -> Prop) l :
  (forall x, P x -> exists y, f x = Ok y /\ Q y) ->
  Forall P l ->
  exists ys, map_res f l = Ok ys /\ length ys = length l /\ Forall Q ys.
Proof.
  intros Hf. induction 1 as [|x l Hx _ IH]; simpl.
  - exists []. auto.
  - destruct (Hf x Hx) as (y & -> & Hy). destruct IH as (ys & -> & Hlen & Hall).
    exists (y :: ys). simpl. auto.
Qed.

Lemma Linear_forward1_shape i o l v :
  Linear_shaped i o l -> length v = i ->
  exists y, Linear_forward1 l v = Ok y /\ length y = o.
Proof.
  intros (Hi & Ho & [Hw _] & Hb) Hv. unfold Linear_forward1.
  destruct (decide _) as [_|Hbad]; [|congruence].
  eexists. split; [reflexivity|]. rewrite length_zip_with, Hw, Hb. apply Nat.min_id.
Qed.

Lemma Linear_forward2_shape i o l n x :
  Linear_shaped i o l -> shape2 n i x ->
  exists y, Linear_forward2 l x = Ok y /\ shape2 n o y.
Proof.
  intros Hl [Hlen Hrows]. unfold Linear_forward2.
  destruct (map_res_shape (Linear_forward1 l)
              (fun v => length v = i) (fun y => length y = o) x)
    as (y & Hy & Hylen & Hall); [|exact Hrows|].
  - intros v Hv. apply (Linear_forward1_shape i o); assumption.
  - exists y. split; [exact Hy|]. split; [exact (eq_trans Hylen Hlen) | exact Hall].
Qed.

Lemma Linear_forward3_shape i o l b s x :
  Linear_shaped i o l -> shape3 b s i x ->
  exists y, Linear_forward3 l x = Ok y /\ shape3 b s o y.
Proof.
  intros Hl [Hlen Hex]. unfold Linear_forward3.
  destruct (map_res_shape (Linear_forward2 l) (shape2 s i) (shape2 s o) x)
    as (y & Hy & Hylen & Hall); [|exact Hex|].
  - intros v Hv. apply (Linear_forward2_shape i o); assumption.
  - exists y. split; [exact Hy|]. split; [exact (eq_trans Hylen Hlen) | exact Hall].
Qed.

Lemma length_concat_shape2 n d (x : tensor2) :
  shape2 n d x -> length (concat x) = (n * d)%nat.
Proof.
  intros [Hlen Hrows]. subst n.
  induction Hrows as [|row x Hrow _ IH]; simpl; [reflexivity|].
  rewrite length_app, IH, Hrow. reflexivity.
Qed.

(** Flattening [(b, s, d)] gives [(b, s * d)] when there is an entry. *)
Lemma view_flat_shape b s d x :
  (1 <= b)%nat -> (1 <= s * d)%nat -> shape3 b s d x ->
  exists y, view_flat x = Ok y /\ shape2 b (s * d) y.
Proof.
  intros Hb Hsd [Hlen Hex]. unfold view_flat.
  assert (Hflat : shape2 b (s * d) (fmap (M := list) (@concat R) x)).
  { split; [rewrite length_fmap; exact Hlen|].
    apply Forall_fmap. eapply Forall_impl; [exact Hex|].
    intros ex Hshape. simpl. apply length_concat_shape2. exact Hshape. }
  destruct (decide _) as [Hzero|_].
  - rewrite (length_concat_shape2 _ _ _ Hflat) in Hzero. nia.
  - eauto.
Qed.

(** A row of [k * n] entries cuts into [k] pieces of [n]. *)
Lemma chunks_shape n k : forall fuel row,
  (1 <= n)%nat -> length row = (k * n)%nat -> (k <= fuel)%nat ->
  exists cs, chunks fuel n row = Some cs /\ shape2 k n cs.
Proof.
  induction k as [|k IH]; intros fuel row Hn Hlen Hfuel.
  - destruct row; [|discriminate]. destruct fuel; simpl.
    + exists []. split; [reflexivity | split; [reflexivity | constructor]].
    + exists []. split; [reflexivity | split; [reflexivity | constructor]].
  - destruct fuel as [|fuel]; [lia|].
    destruct row as [|a row]; [simpl in Hlen; lia|].
    cbn [chunks]. destruct (decide _) as [_|Hbad]; [|simpl in *; lia].
    destruct (IH fuel (drop n (a :: row)) Hn) as (cs & Hcs & Hclen & Hrows).
    { rewrite length_drop, Hlen. lia. }
    { lia. }
    rewrite Hcs. simpl. eexists. split; [reflexivity|].
    split; [simpl; lia|]. constructor; [|exact Hrows].
    rewrite length_take, Hlen. lia.
Qed.

(** Cutting [(b, s * n)] into tokens gives [(b, s, n)]. *)
Lemma view_tokens_shape n b s x :
  (1 <= n)%nat -> (1 <= b)%nat -> (1 <= s)%nat -> shape2 b (s * n) x ->
  exists y, view_tokens n x = Ok y /\ shape3 b s n y.
Proof.
  intros Hn Hb Hs Hx. unfold view_tokens.
  destruct (decide _) as [Hzero|_].
  { rewrite (length_concat_shape2 _ _ _ Hx) in Hzero. nia. }
  destruct Hx as [Hlen Hrows].
  assert (Hall : exists y,
            mapM (fun row => chunks (length row) n row) x = Some y
            /\ length y = length x /\ Forall (shape2 s n) y).
  { clear Hlen. induction Hrows as [|row x Hrow _ IH].
    - exists []. auto.
    - destruct (chunks_shape n s (length row) row Hn Hrow) as (cs & Hcs & Hc).
      { rewrite Hrow. nia. }
      destruct IH as (y & Hy & Hylen & Hyall).
      exists (cs :: y). cbn [mapM]. rewrite Hcs. simpl. rewrite Hy. simpl.
      split; [reflexivity|]. split; [lia|]. constructor; assumption. }
  destruct Hall as (y & -> & Hylen & Hyall). simpl.
  exists y. split; [reflexivity|].
  split; [exact (eq_trans Hylen Hlen) | exact Hyall].
Qed.


End ShapeFacts.

(** ** The latent encoder and decoder *)

Section BottleneckFacts.

Local Open Scope R_scope.

Lemma encoder_forward_shape dim_m S L e b encoding :
  LatentEncoder_built dim_m S L e ->
  (1 <= b)%nat -> (1 <= S)%nat -> shape3 b S dim_m encoding ->
  exists latent, LatentEncoder_forward e encoding = Ok latent
                 /\ shape2 b L latent.
Proof.
  intros (_ & Htok & Hseq) Hb HS Hx. unfold LatentEncoder_forward.
  destruct (Linear_forward3_shape _ _ _ _ _ _ Htok Hx) as (y1 & -> & Hy1).
  simpl.
  destruct (view_flat_shape b S 100 y1 Hb ltac:(lia) Hy1) as (y2 & -> & Hy2).
  simpl. rewrite Nat.mul_comm in Hy2.
  destruct (Linear_forward2_shape _ _ _ _ _ Hseq Hy2) as (y3 & -> & [Hlen Hrows]).
  simpl. eexists. split; [reflexivity|].
  split; [rewrite length_fmap; exact Hlen|].
  apply Forall_fmap. eapply Forall_impl; [exact Hrows|].
  intros row Hrow. simpl. rewrite length_fmap. exact Hrow.
Qed.


Lemma decoder_forward_shape dim_m S L d b latent :
  LatentDecoder_built dim_m S L d ->
  (1 <= b)%nat -> (1 <= S)%nat -> shape2 b L latent ->
  exists recon, LatentDecoder_forward d latent = Ok recon
                /\ shape3 b S dim_m recon.
Proof.
  intros (Hdec & Hseq & Htok & Hnorm) Hb HS Hx. unfold LatentDecoder_forward.
  destruct (Linear_forward2_shape _ _ _ _ _ Hdec Hx) as (y1 & -> & Hy1).
  simpl.
  destruct (Linear_forward2_shape _ _ _ _ _ Hseq Hy1) as (y2 & -> & Hy2).
  simpl. rewrite Nat.mul_comm in Hy2.
  destruct (view_tokens_shape 100 b S y2 ltac:(lia) Hb HS Hy2)
    as (y3 & -> & Hy3).
  simpl.
  destruct (Linear_forward3_shape _ _ _ _ _ _ Htok Hy3) as (y4 & -> & Hy4).
  simpl. apply (Hnorm b S y4 Hy4).
Qed.

Lemma zero_linear_shaped i o : Linear_shaped i o (zero_linear i o).
Proof.
  unfold Linear_shaped, zero_linear, shape2. simpl.
  rewrite !length_replicate. repeat split.
  apply Forall_replicate. apply length_replicate.
Qed.

End BottleneckFacts.


Lemma encoder_101_built : LatentEncoder_built 101 2 3 encoder_101.
Proof.
  split; [lia|]. split; apply zero_linear_shaped.
Defined.

Lemma encoding_101_shape : shape3 1 2 101 encoding_101.
Proof.
  split; [reflexivity|]. repeat constructor.
Defined.


(** C5. Round-trip shape: for an encoder and a decoder built for hidden
    size [dim_m > 100], [set_input_size] positions and [latent_size]
    dimensions, the decoder sends every latent of shape
    [(batch, latent_size)] to a tensor of shape
    [(batch, set_input_size, dim_m)]; so from an encoding of that shape the
    encoder returns a latent from which the decoder returns a tensor of the
    shape of the encoding.  (The external block [norm] is assumed to keep
    the shape of its input.) *)
Theorem decoder_restores_shape (dim_m set_input_size latent_size batch : nat)
    (e : LatentEncoderLargeTanh_1kLatent) (d : LatentDecoderLargeT5NormFF) :
  LatentEncoder_built dim_m set_input_size latent_size e ->
  LatentDecoder_built dim_m set_input_size latent_size d ->
  (1 <= batch)%nat -> (1 <= set_input_size)%nat ->
  (forall latent,
     shape2 batch latent_size latent ->
     exists recon,
       LatentDecoder_forward d latent = Ok recon
       /\ shape3 batch set_input_size dim_m recon)
  /\ (forall encoding,
        shape3 batch set_input_size dim_m encoding ->
        exists latent recon,
          LatentEncoder_forward e encoding = Ok latent
          /\ LatentDecoder_forward d latent = Ok recon
          /\ shape3 batch set_input_size dim_m recon).
Proof.
  intros He Hd Hb HS. split.
  - intros latent Hlat. eapply decoder_forward_shape; eauto.
  - intros encoding Hx.
    destruct (encoder_forward_shape _ _ _ _ _ _ He Hb HS Hx)
      as (latent & Hlat & Hshape).
    destruct (decoder_forward_shape _ _ _ _ _ _ Hd Hb HS Hshape)
      as (recon & Hrec & Hrshape).
    exists latent, recon. auto.
Qed.

Lemma decoder_101_built : LatentDecoder_built 101 2 3 decoder_101.
Proof.
  split; [apply zero_linear_shaped|]. split; [apply zero_linear_shaped|].
  split; [apply zero_linear_shaped|].
  intros b s x Hx. exists x. split; [reflexivity | exact Hx].
Defined.

Lemma decoder_restores_shape_witness :
  exists latent recon,
    LatentEncoder_forward encoder_101 encoding_101 = Ok latent
    /\ LatentDecoder_forward decoder_101 latent = Ok recon
    /\ shape3 1 2 101 recon.
Proof.
  destruct (decoder_restores_shape 101 2 3 1 encoder_101 decoder_101
              encoder_101_built decoder_101_built) as [_ Hround]; [lia | lia |].
  apply Hround. exact encoding_101_shape.
Defined.

(** ** Randomness in the autoencoder *)

Section GeneratorFacts.

Local Open Scope R_scope.

Lemma exp_eq a b : a = b -> exp a = exp b.
Proof. intros ->. reflexivity. Qed.

(** The regularisation loss of the one latent [0] when the generator
    hands out the sample [g 0]. *)
Lemma regulariser_loss_one_sample self input (g : Generator) :
  _regularliser_loss self input [[0]] g
  = Ok (Some (2 - 2 * exp (- (g O * g O))), fun i => g (1 * 1 + i)%nat).
Proof.
  unfold _regularliser_loss, randn, _compute_mmd, _compute_kernel, mean_all.
  simpl. do 3 f_equal.
  rewrite (exp_eq _ 0) by lra. rewrite exp_0.
  rewrite (exp_eq _ 0) by lra. rewrite exp_0.
  rewrite (exp_eq _ (- (g O * g O))) by lra.
  lra.
Qed.

(** Two generators, two regularisation losses. *)
Lemma regulariser_loss_depends_on_samples self input :
  exists g1 g2 r1 r2 g1' g2',
    _regularliser_loss self input [[0]] g1 = Ok (r1, g1')
    /\ _regularliser_loss self input [[0]] g2 = Ok (r2, g2')
    /\ r1 <> r2.
Proof.
  exists (fun _ => 0), (fun _ => 1).
  do 4 eexists. rewrite !regulariser_loss_one_sample.
  split; [reflexivity|]. split; [reflexivity|].
  intros E.
  assert (E' : 2 - 2 * exp (- (0 * 0)) = 2 - 2 * exp (- (1 * 1)))
    by (injection E; auto).
  rewrite (exp_eq (- (0 * 0)) 0) in E' by lra.
  rewrite (exp_eq (- (1 * 1)) (- (1))) in E' by lra.
  assert (Hlt : exp (- (1)) < exp 0) by (apply exp_increasing; lra).
  lra.
Qed.

Lemma compute_kernel_ok x y :
  is_ok (_compute_kernel x y)
  <-> x = [] \/ Forall (fun row => length row = width x) y.
Proof.
  unfold _compute_kernel. destruct (decide _) as [Hy|Hy]; simpl; tauto.
Qed.

(** Whether the MMD raises is a matter of the widths only. *)
Lemma compute_mmd_ok x y :
  is_ok (_compute_mmd x y) <->
  (x = [] \/ Forall (fun row => length row = width x) x)
  /\ (y = [] \/ Forall (fun row => length row = width y) y)
  /\ (x = [] \/ Forall (fun row => length row = width x) y).
Proof.
  unfold _compute_mmd.
  rewrite <- (compute_kernel_ok x x), <- (compute_kernel_ok y y),
    <- (compute_kernel_ok x y).
  destruct (_compute_kernel x x); simpl; [|tauto].
  destruct (_compute_kernel y y); simpl; [|tauto].
  destruct (_compute_kernel x y); simpl; tauto.
Qed.

Lemma randn_rows n d (g : Generator) :
  Forall (fun row => length row = d) (fst (randn n d g)).
Proof.
  simpl. apply Forall_fmap, Forall_forall. intros i _. simpl.
  rewrite length_fmap, length_seq. reflexivity.
Qed.

Lemma randn_width n d (g : Generator) :
  width (fst (randn n d g)) = match n with O => O | S _ => d end.
Proof.
  destruct n; simpl; [reflexivity|].
  rewrite length_fmap, length_seq. reflexivity.
Qed.

(** Whether the MMD of fresh samples against a batch raises does not
    depend on the samples. *)
Lemma compute_mmd_randn_ok n d (g1 g2 : Generator) y :
  is_ok (_compute_mmd (fst (randn n d g1)) y) ->
  is_ok (_compute_mmd (fst (randn n d g2)) y).
Proof.
  rewrite !compute_mmd_ok, !randn_width. intros (_ & Hy & Hxy).
  split; [|split; [exact Hy|]].
  - destruct n; [left; reflexivity | right; apply randn_rows].
  - destruct n; [left; reflexivity|].
    destruct Hxy as [Hnil | Hxy]; [discriminate | right; exact Hxy].
Qed.

Lemma model_forward_latent self input recon latent :
  _model_forward self input = Ok (recon, latent) ->
  LatentEncoder_forward (encoder self) input = Ok latent
  /\ LatentDecoder_forward (decoder self) latent = Ok recon.
Proof.
  unfold _model_forward. intros (l & Hl & H)%bind_Ok.
  apply bind_Ok in H as (r & Hr & [= <- <-]). auto.
Qed.

End GeneratorFacts.

(** C10. Of the three modes of [FullSeqAE.forward], the latent-only and the
    reconstruction-only one return (or raise) the same whatever the state of
    the random generator, and leave that state as it was: the latent is
    the encoder's, the encoding the decoder's of that latent.  In full mode
    the reconstruction loss and the reconstructed encoding are the same for
    every generator; the generator is advanced by the samples of
    [_regularliser_loss], one per component of the latent, and the
    regularisation loss is the only result that varies with them. *)
Theorem forward_modes_deterministic (self : FullSeqAE)
    (input_encoding : tensor3) (g1 g2 : Generator) :
  (forall just_get_encoding,
     returned (FullSeqAE_forward self input_encoding true just_get_encoding g1)
     = returned (FullSeqAE_forward self input_encoding true just_get_encoding g2)
     /\ forall out g',
          FullSeqAE_forward self input_encoding true just_get_encoding g1
          = Ok (out, g') ->
          g' = g1
          /\ exists latent,
               out = JustLatent latent
               /\ LatentEncoder_forward (encoder self) input_encoding
                  = Ok latent)
  /\ (returned (FullSeqAE_forward self input_encoding false true g1)
      = returned (FullSeqAE_forward self input_encoding false true g2)
      /\ forall out g',
           FullSeqAE_forward self input_encoding false true g1 = Ok (out, g') ->
           g' = g1
           /\ exists latent recon,
                out = JustEncoding recon
                /\ LatentEncoder_forward (encoder self) input_encoding
                   = Ok latent
                /\ LatentDecoder_forward (decoder self) latent = Ok recon)
  /\ (forall recon_loss reg_loss recon g',
        FullSeqAE_forward self input_encoding false false g1
        = Ok (Losses recon_loss reg_loss recon, g') ->
        (exists latent,
           LatentEncoder_forward (encoder self) input_encoding = Ok latent
           /\ g' = fun i => g1 (length latent * width latent + i)%nat)
        /\ exists reg_loss2 g2',
             FullSeqAE_forward self input_encoding false false g2
             = Ok (Losses recon_loss reg_loss2 recon, g2'))
  /\ (exists latent h1 h2 r1 r2 h1' h2',
        _regularliser_loss self input_encoding latent h1 = Ok (r1, h1')
        /\ _regularliser_loss self input_encoding latent h2 = Ok (r2, h2')
        /\ r1 <> r2).
Proof.
  unfold FullSeqAE_forward.
  destruct (_model_forward self input_encoding) as [[recon latent]|e] eqn:Em;
    simpl.
  - apply model_forward_latent in Em as [Hlat Hrec].
    split; [|split; [|split]].
    + intros je. split; [reflexivity|]. intros out g' [= <- <-]. eauto.
    + split; [reflexivity|]. intros out g' [= <- <-].
      split; [reflexivity|]. exists latent, recon. auto.
    + intros recon_loss reg_loss recon' g'.
      destruct (MSELoss input_encoding recon) as [rl|]; simpl; [|discriminate].
      unfold _regularliser_loss. simpl.
      destruct (_compute_mmd (fmap _ _) latent) as [m1|] eqn:E1;
        simpl; [|discriminate].
      intros [= <- <- <- <-].
      split; [exists latent; auto|].
      pose proof (compute_mmd_randn_ok (length latent) (width latent)
                    g1 g2 latent) as Hok.
      simpl in Hok. rewrite E1 in Hok. specialize (Hok I).
      match type of Hok with
      | is_ok ?t => destruct t as [m2|]; [|contradiction]
      end.
      simpl. eauto.
    + exists [[0%R]]. apply regulariser_loss_depends_on_samples.
  - split; [|split; [|split]].
    + intros je. split; [reflexivity|]. discriminate.
    + split; [reflexivity|]. discriminate.
    + discriminate.
    + exists [[0%R]]. apply regulariser_loss_depends_on_samples.
Qed.

Lemma forward_modes_deterministic_witness :
  exists latent,
    FullSeqAE_forward autoencoder_101 encoding_101 true false (fun _ => 0%R)
    = Ok (JustLatent latent, fun _ => 0%R)
    /\ returned (FullSeqAE_forward autoencoder_101 encoding_101 true false
                   (fun _ => 1%R))
       = Ok (JustLatent latent).
Proof.
  destruct (encoder_forward_shape 101 2 3 encoder_101 1 encoding_101
              encoder_101_built ltac:(lia) ltac:(lia) encoding_101_shape)
    as (latent & Hlat & Hshape).
  destruct (decoder_forward_shape 101 2 3 decoder_101 1 latent
              decoder_101_built ltac:(lia) ltac:(lia) Hshape)
    as (recon & Hrec & _).
  assert (Hrun : FullSeqAE_forward autoencoder_101 encoding_101 true false
                   (fun _ => 0%R)
                 = Ok (JustLatent latent, fun _ => 0%R)).
  { unfold FullSeqAE_forward, _model_forward.
    change (encoder autoencoder_101) with encoder_101.
    change (decoder autoencoder_101) with decoder_101.
    rewrite Hlat. simpl. rewrite Hrec. reflexivity. }
  exists latent. split; [exact Hrun|].
  destruct (forward_modes_deterministic autoencoder_101 encoding_101
              (fun _ => 0%R) (fun _ => 1%R)) as (Hlatent & _).
  destruct (Hlatent false) as [Heq _].
  rewrite <- Heq, Hrun. reflexivity.
Defined.

(** * Further properties *)

(** ** More about the tokenizer *)

Section MoreTokenizerFacts.

Context `{SetIteration}.

Lemma split_length sep s : length (split sep s) = S (count_char sep s).
Proof.
  induction s as [|a s IH]; simpl; [reflexivity|].
  destruct (Ascii.eqb a sep); simpl; [rewrite IH; reflexivity|].
  pose proof (split_not_nil sep s).
  destruct (split sep s); [contradiction|]. simpl in *. exact IH.
Qed.

Lemma map_res_inv {A B} (f : A -> res B) (l : list A) (ys : list B) :
  map_res f l = Ok ys -> Forall2 (fun x y => f x = Ok y) l ys.
Proof.
  revert ys; induction l as [|x l IH]; intros ys; simpl.
  - intros [= <-]. constructor.
  - intros (y & Hy & Hrest)%bind_Ok.
    apply bind_Ok in Hrest as (ys' & Hys & [= <-]).
    constructor; auto.
Qed.

Lemma of_option_Some {A} (e : exn) (o : option A) (a : A) :
  of_option e o = Ok a -> o = Some a.
Proof. destruct o; simpl; congruence. Qed.

Lemma get_index_in_range contents tk w i :
  built contents tk -> get_index tk w = Ok i ->
  (i < NesT5Tokenizer_len tk)%nat.
Proof.
  intros B. unfold get_index, NesT5Tokenizer_len.
  destruct (vocab2index tk !! w) as [j|] eqn:Ej.
  - intros [= <-].
    apply (lookup_lt_Some _ _ w).
    apply (built_lookup contents tk w B). exact Ej.
  - destruct (decide _); [|discriminate].
    intros (v & _ & Hrest)%bind_Ok.
    apply bind_Ok in Hrest as (b & _ & Hi).
    apply of_option_Some in Hi.
    apply (lookup_lt_Some _ _ ("WT_" +:+ str b)).
    apply (built_lookup contents tk _ B). exact Hi.
Qed.





End MoreTokenizerFacts.



(** X2. Every id that [get_index] returns, for an entry or for a bucket, is
    a position of the vocabulary: it is below [len(tokenizer)].  So are
    all the ids of [tokenize]. *)
Theorem token_ids_in_range `{SetIteration} (contents : string)
    (tk : NesT5Tokenizer) :
  NesT5Tokenizer_init contents = Ok tk ->
  (forall w i, get_index tk w = Ok i -> (i < NesT5Tokenizer_len tk)%nat)
  /\ (forall txt ids,
        tokenize tk txt = Ok ids ->
        Forall (fun i => (i < NesT5Tokenizer_len tk)%nat) ids).
Proof.
  intros B%init_built. split.
  - intros w i. apply (get_index_in_range contents tk w i B).
  - intros txt ids Hids. apply map_res_inv in Hids.
    induction Hids as [|w i ws ids Hi _ IH]; constructor; [|exact IH].
    eapply get_index_in_range; eauto.
Qed.

Lemma token_ids_in_range_witness :
  exists ids,
    tokenize (H := elements_iteration) tokenizer "WT_13 P1 WT_19" = Ok ids
    /\ Forall (fun i => (i < NesT5Tokenizer_len tokenizer)%nat) ids.
Proof.
  eexists. split; [vm_compute; reflexivity|].
  refine (proj2 (@token_ids_in_range elements_iteration vocab_file tokenizer _)
            "WT_13 P1 WT_19" _ _); vm_compute; reflexivity.
Defined.

(** X3. The wait amounts that [__init__] registers are exactly the integers
    read from the second field of the cleaned lines that start with [WT]. *)
Theorem wait_amts_registry `{SetIteration} (contents : string)
    (tk : NesT5Tokenizer) (b : Z) :
  NesT5Tokenizer_init contents = Ok tk ->
  b ∈ wait_amts tk
  <-> exists w, w ∈ vocab_lines contents /\ prefix 2 w = "WT"
                /\ wait_amt_of w = Ok b.
Proof.
  intros B%init_built. rewrite (built_buckets contents tk b B).
  rewrite (built_index2vocab _ _ B).
  split; intros (w & Hw & HWT & Hb); exists w; (split; [|auto]).
  - apply elem_of_cons in Hw as [-> | Hw]; [discriminate|].
    apply elem_of_cons in Hw as [-> | Hw]; [discriminate|].
    apply iter_str_elem, elem_of_list_to_set in Hw. exact Hw.
  - right; right. apply iter_str_elem, elem_of_list_to_set. exact Hw.
Qed.

Lemma wait_amts_registry_witness :
  20 ∈ wait_amts tokenizer
  <-> exists w, w ∈ vocab_lines vocab_file /\ prefix 2 w = "WT"
                /\ wait_amt_of w = Ok 20.
Proof.
  apply (@wait_amts_registry elements_iteration vocab_file tokenizer 20).
  vm_compute. reflexivity.
Defined.

(** X4. [tokenize] returns one id per field between single spaces: one
    more than the text has spaces, never none. *)
Theorem tokenize_length `{SetIteration} (tk : NesT5Tokenizer) (txt : string)
    (ids : list nat) :
  tokenize tk txt = Ok ids -> length ids = S (count_char " " txt).
Proof.
  unfold tokenize. intros Hids%map_res_inv.
  rewrite <- (split_length " " txt). symmetry.
  eapply Forall2_length; eauto.
Qed.

Lemma tokenize_length_witness :
  exists ids,
    tokenize (H := elements_iteration) tokenizer "NOTEON_60 WT_10 NOTEOFF_60"
    = Ok ids
    /\ length ids = 3%nat.
Proof.
  eexists. split; [vm_compute; reflexivity|].
  apply (@tokenize_length elements_iteration tokenizer
           "NOTEON_60 WT_10 NOTEOFF_60").
  vm_compute. reflexivity.
Defined.

(** X5. The order in which the set of wait amounts is walked matters to
    [get_index] only on a tie: when one registered wait amount is strictly
    nearer to the token's number than every other, two walks of the set
    give the same result. *)
Theorem nearest_bucket_order_independent (I1 I2 : SetIteration)
    (tk : NesT5Tokenizer) (w : string) (v b : Z) :
  wait_amt_of w = Ok v ->
  b ∈ wait_amts tk ->
  (forall b', b' ∈ wait_amts tk -> b' <> b -> Z.abs (b - v) < Z.abs (b' - v)) ->
  @get_index I1 tk w = @get_index I2 tk w.
Proof.
  intros Hv Hb Hstrict. unfold get_index.
  destruct (vocab2index tk !! w); [reflexivity|].
  destruct (decide _); [|reflexivity]. rewrite Hv. simpl.
  assert (Hpick : forall I : SetIteration,
            min_key (fun x => Z.abs (x - v)) (@iter_int I (wait_amts tk)) = Ok b).
  { intros I.
    assert (Hin : forall x, x ∈ @iter_int I (wait_amts tk) <-> x ∈ wait_amts tk).
    { intros x. rewrite (@iter_int_perm I (wait_amts tk)).
      apply elem_of_elements. }
    destruct (min_key_total (fun x => Z.abs (x - v)) (@iter_int I (wait_amts tk)))
      as [b1 Hb1].
    { intros Hnil. apply Hin in Hb. rewrite Hnil in Hb. inversion Hb. }
    rewrite Hb1. f_equal.
    apply min_key_spec in Hb1 as [Hb1in Hmin].
    destruct (decide (b1 = b)) as [E|Hne]; [exact E|].
    rewrite Forall_forall in Hmin.
    pose proof (Hmin b (proj2 (Hin b) Hb)) as Hle.
    pose proof (Hstrict b1 (proj1 (Hin b1) Hb1in) Hne). simpl in Hle. lia. }
  rewrite (Hpick I1), (Hpick I2). reflexivity.
Qed.

Lemma nearest_bucket_order_independent_witness :
  get_index (H := elements_iteration) tokenizer "WT_14"
  = get_index (H := reversed_iteration) tokenizer "WT_14".
Proof.
  apply (nearest_bucket_order_independent elements_iteration reversed_iteration
           tokenizer "WT_14" 14 10).
  - reflexivity.
  - by_compute.
  - intros b' Hb' Hne.
    assert (Hcases : b' = 10 \/ b' = 20).
    { apply elem_of_elements in Hb'.
      vm_compute in Hb'.
      apply elem_of_cons in Hb' as [-> | Hb']; [auto|].
      apply elem_of_cons in Hb' as [-> | Hb']; [auto | inversion Hb']. }
    destruct Hcases as [-> | ->]; [contradiction | lia].
Defined.

(** On a tie the walk decides: 15 is as far from 10 as from 20. *)
Example nearest_bucket_tie :
  get_index (H := elements_iteration) tokenizer "WT_15" = Ok 2%nat
  /\ get_index (H := reversed_iteration) tokenizer "WT_15" = Ok 3%nat.
Proof. split; vm_compute; reflexivity. Qed.

(** ** How far the training loop runs *)

Section RunLengthFacts.

Variable args : TrainingArguments.
Variable len : nat.

Local Abbreviation N := (gradient_accumulation_steps args).


(** With a positive [N] and at least one batch, the test before the
    optimizer step is divisibility of [step + 1] by [min(N, len)]. *)
Lemma at_boundary_min step :
  0 < N -> (step < len)%nat ->
  at_boundary args len step = true
  <-> (Z.of_nat step + 1) mod Z.min N (Z.of_nat len) = 0.
Proof.
  intros HN Hstep. rewrite at_boundary_iff.
  destruct (Z.min_spec N (Z.of_nat len)) as [[Hlt ->] | [Hle ->]].
  - split; [|auto]. intros [Hm | [Hle _]]; [exact Hm | lia].
  - destruct (decide (Z.of_nat step + 1 = Z.of_nat len)) as [Heq|Hne].
    + rewrite Heq, Z.mod_same by lia. split; [auto|]. intros _. right. lia.
    + rewrite (Z.mod_small (Z.of_nat step + 1) (Z.of_nat len)) by lia.
      split; [|lia]. intros [Hm | [_ Heq]]; [|lia].
      rewrite Z.mod_small in Hm by lia. lia.
Qed.

Lemma div_succ G s :
  0 < G -> 0 <= s ->
  (s + 1) / G = s / G + (if decide ((s + 1) mod G = 0) then 1 else 0).
Proof.
  intros HG Hs. pose proof (Z.mod_pos_bound s G HG) as Hr.
  pose proof (Z.div_mod s G ltac:(lia)) as Hsd.
  destruct (decide _) as [Hon|Hoff].
  - pose proof (mod_succ_on G s HG Hon) as Hm.
    symmetry. apply (Z.div_unique _ _ _ 0); [left; lia | lia].
  - pose proof (mod_succ_off G s HG Hoff) as Hm.
    symmetry. apply (Z.div_unique _ _ _ (s mod G + 1)); [left|lia].
    pose proof (Z.mod_pos_bound (s + 1) G HG). lia.
Qed.




End RunLengthFacts.

Section RunLengthProofs.

Variable args : TrainingArguments.
Variable len : nat.

Local Abbreviation N := (gradient_accumulation_steps args).
Local Abbreviation G := (Z.min (gradient_accumulation_steps args) (Z.of_nat len)).
Local Abbreviation M := (max_steps args).

Hypothesis N_pos : 0 < N.
Hypothesis len_pos : (0 < len)%nat.






End RunLengthProofs.





(** ** Decimal numerals *)

Section Numerals.

Lemma chars_inj s t : chars s = chars t -> s = t.
Proof.
  revert t. induction s as [|a s IH]; intros [|b t]; simpl;
    try discriminate; [reflexivity|].
  intros [= -> Hs]. rewrite (IH _ Hs). reflexivity.
Qed.

Lemma chars_app s t : chars (s +:+ t) = chars s ++ chars t.
Proof. induction s as [|a s IH]; simpl; [reflexivity | rewrite IH; reflexivity]. Qed.

Lemma string_app_assoc (s t u : string) : (s +:+ t) +:+ u = s +:+ (t +:+ u).
Proof. apply chars_inj. rewrite !chars_app. apply eq_sym, app_assoc. Qed.

Lemma chars_rev_app s t :
  chars (String.rev_app s t) = rev_append (chars s) (chars t).
Proof.
  revert t. induction s as [|a s IH]; intros t; simpl; [reflexivity|].
  rewrite IH. reflexivity.
Qed.

Lemma chars_rev s : chars (String.rev s) = List.rev (chars s).
Proof. unfold String.rev. rewrite chars_rev_app, rev_append_rev, app_nil_r. reflexivity. Qed.

Lemma string_rev_involutive s : String.rev (String.rev s) = s.
Proof. apply chars_inj. rewrite !chars_rev. apply rev_involutive. Qed.

Lemma lstrip_id s :
  match s with String a _ => is_space a = false | EmptyString => True end ->
  lstrip s = s.
Proof. destruct s as [|a s]; simpl; [reflexivity|]. intros ->. reflexivity. Qed.

(** [strip] leaves a string without white space as it is. *)
Lemma strip_id s :
  Forall (fun a => is_space a = false) (chars s) -> strip s = s.
Proof.
  intros Hs. unfold strip, rstrip.
  rewrite (lstrip_id s) by (destruct s; [exact I | inversion Hs; assumption]).
  rewrite lstrip_id; [apply string_rev_involutive|].
  assert (Hrev : Forall (fun a => is_space a = false) (chars (String.rev s))).
  { rewrite chars_rev. apply Forall_rev, Hs. }
  destruct (String.rev s); [exact I | inversion Hrev; assumption].
Qed.

Lemma pretty_N_char_digit (d : N) :
  (d < 10)%N -> Ascii.is_nat (pretty_N_char d) = Some (N.to_nat d).
Proof.
  intros Hd.
  assert (d = 0 \/ d = 1 \/ d = 2 \/ d = 3 \/ d = 4 \/ d = 5 \/ d = 6
          \/ d = 7 \/ d = 8 \/ d = 9)%N as Hcases by lia.
  repeat (destruct Hcases as [-> | Hcases]; [reflexivity|]).
  subst d. reflexivity.
Qed.

Lemma pretty_N_go_digits (x : N) : forall s,
  Forall is_digit (chars s) -> Forall is_digit (chars (pretty_N_go x s)).
Proof.
  induction (N.lt_wf_0 x) as [x _ IH]; intros s Hs.
  destruct (decide (x = 0)%N) as [-> | Hx]; [rewrite pretty_N_go_0; exact Hs|].
  rewrite pretty_N_go_step by lia.
  apply IH; [apply N.div_lt; lia|].
  simpl. constructor; [|exact Hs].
  unfold is_digit. rewrite pretty_N_char_digit; [eexists; reflexivity|].
  apply N.mod_lt. lia.
Qed.

(** Reading back what [pretty] prints, digit by digit. *)
Lemma int_digits_pretty_N_go (x : N) : forall s,
  (0 < x)%N ->
  int_digits 0 false (pretty_N_go x s) = int_digits (Z.of_N x) true s.
Proof.
  induction (N.lt_wf_0 x) as [x _ IH]; intros s Hx.
  rewrite pretty_N_go_step by exact Hx.
  destruct (decide (x `div` 10 = 0)%N) as [Hq | Hq].
  - rewrite Hq, pretty_N_go_0. simpl.
    assert (Hlt : (x < 10)%N) by (apply N.div_small_iff in Hq; lia).
    rewrite pretty_N_char_digit by (apply N.mod_lt; lia).
    rewrite N.mod_small by exact Hlt.
    f_equal. lia.
  - rewrite IH; [|apply N.div_lt; lia|apply N.neq_0_lt_0, Hq]. simpl.
    rewrite pretty_N_char_digit by (apply N.mod_lt; lia).
    f_equal. pose proof (N.div_mod x 10 ltac:(lia)). lia.
Qed.

Lemma str_digits (n : Z) : 0 <= n -> Forall is_digit (chars (str n)).
Proof.
  intros Hn. unfold str, pretty, pretty_Z.
  destruct n as [|p|p]; [repeat constructor; eexists; reflexivity | | lia].
  unfold pretty, pretty_positive, pretty, pretty_N.
  destruct (decide _); [discriminate|].
  apply pretty_N_go_digits. constructor.
Qed.

Lemma digit_not_space a : is_digit a -> is_space a = false.
Proof.
  intros [d Hd]. unfold Ascii.is_nat in Hd.
  repeat (case_match; try discriminate); reflexivity.
Qed.

Lemma digit_not_char c a :
  Ascii.is_nat c = None -> is_digit a -> Ascii.eqb a c = false.
Proof.
  intros Hc [d Hd]. apply Ascii.eqb_neq. intros ->. congruence.
Qed.

Lemma digits_no_char c s :
  Ascii.is_nat c = None -> Forall is_digit (chars s) -> has_char c s = false.
Proof.
  intros Hc. induction s as [|a s IH]; simpl; [reflexivity|].
  intros Hs. inversion Hs as [|? ? Ha Hs']; subst.
  rewrite (digit_not_char c a Hc Ha), IH by exact Hs'. reflexivity.
Qed.

(** [int(str(n)) == n] for a natural number. *)
Lemma int_str (n : Z) : 0 <= n -> int (str n) = Some n.
Proof.
  intros Hn. unfold int.
  rewrite strip_id
    by (eapply Forall_impl; [apply str_digits, Hn | apply digit_not_space]).
  pose proof (str_digits n Hn) as Hd.
  assert (Hval : int_digits 0 false (str n) = Some n).
  { unfold str, pretty, pretty_Z.
    destruct n as [|p|p]; [reflexivity | | lia].
    unfold pretty, pretty_positive, pretty, pretty_N.
    destruct (decide _); [discriminate|].
    rewrite int_digits_pretty_N_go by lia. reflexivity. }
  destruct (str n) as [|a r] eqn:Hs; [exact Hval|].
  inversion Hd as [|? ? Ha _]; subst.
  pose proof (digit_not_char "-" a eq_refl Ha) as Hm.
  pose proof (digit_not_char "+" a eq_refl Ha) as Hp.
  destruct (Ascii.eqb_spec a "-") as [->|Hne1]; [discriminate|].
  destruct (Ascii.eqb_spec a "+") as [->|Hne2]; [discriminate|].
  destruct a as [[] [] [] [] [] [] [] []]; try exact Hval; congruence.
Qed.

End Numerals.

Section CheckpointNames.

Import Trainer.

Lemma split_app_sep c a d :
  split c (a +:+ String c d) = split c a ++ split c d.
Proof.
  induction a as [|x a IH]; simpl.
  - rewrite Ascii.eqb_refl. reflexivity.
  - destruct (Ascii.eqb x c); [rewrite IH; reflexivity|].
    rewrite IH. pose proof (split_not_nil c a).
    destruct (split c a); [contradiction | reflexivity].
Qed.

Lemma last_app_nonempty {A} (l1 l2 : list A) d :
  l2 <> [] -> List.last (l1 ++ l2) d = List.last l2 d.
Proof.
  intros Hl2. induction l1 as [|x l1 IH]; [reflexivity|].
  simpl. rewrite IH. destruct (l1 ++ l2) eqn:E; [|reflexivity].
  apply app_eq_nil in E as [_ ->]. contradiction.
Qed.

Lemma has_char_app c s t :
  has_char c (s +:+ t) = has_char c s || has_char c t.
Proof.
  induction s as [|a s IH]; simpl; [reflexivity|].
  rewrite IH, orb_assoc. reflexivity.
Qed.

(** A path that ends in [-<n>], or in [-<n>/], names step [n]. *)
Lemma checkpoint_step_suffix pre n :
  0 <= n ->
  checkpoint_step (pre +:+ String "-" (str n)) = Some n
  /\ checkpoint_step ((pre +:+ String "-" (str n)) +:+ "/") = Some n.
Proof.
  intros Hn. pose proof (str_digits n Hn) as Hd.
  pose proof (digits_no_char "-" (str n) eq_refl Hd) as Hdash.
  pose proof (digits_no_char "/" (str n) eq_refl Hd) as Hslash.
  unfold checkpoint_step. split.
  - rewrite split_app_sep, last_app_nonempty by apply split_not_nil.
    rewrite (split_no_sep "-") by exact Hdash. simpl.
    rewrite (split_no_sep "/") by exact Hslash. simpl.
    apply int_str, Hn.
  - rewrite string_app_assoc.
    change (String "-" (str n) +:+ "/") with (String "-" (str n +:+ "/")).
    rewrite split_app_sep, last_app_nonempty by apply split_not_nil.
    rewrite (split_no_sep "-")
      by (rewrite has_char_app, Hdash; reflexivity).
    simpl List.last.
    rewrite (split_app_sep "/" (str n) ""), (split_no_sep "/") by exact Hslash.
    simpl. apply int_str, Hn.
Qed.

Lemma checkpoint_dir_suffix prefix output_dir n :
  exists pre, checkpoint_dir prefix output_dir n = pre +:+ String "-" (str n).
Proof.
  unfold checkpoint_dir, path_join.
  change ("-" +:+ str n) with (String "-" (str n)).
  destruct (startswith _ _); [eexists; reflexivity|].
  destruct (_ || _).
  - exists (output_dir +:+ prefix). rewrite string_app_assoc. reflexivity.
  - exists (output_dir +:+ "/" +:+ prefix).
    rewrite !string_app_assoc. reflexivity.
Qed.

End CheckpointNames.

(** X8. The directory [train] saves a checkpoint into at global step
    [n >= 0], [os.path.join(output_dir, f"{PREFIX_CHECKPOINT_DIR}-{n}")],
    is read back as step [n] when it is given as [model_path], with or
    without a trailing slash, whatever the output directory and the
    prefix are. *)
Theorem checkpoint_name_roundtrip (PREFIX_CHECKPOINT_DIR output_dir : string)
    (n : Z) :
  0 <= n ->
  Trainer.checkpoint_step (checkpoint_dir PREFIX_CHECKPOINT_DIR output_dir n)
    = Some n
  /\ Trainer.checkpoint_step
       (checkpoint_dir PREFIX_CHECKPOINT_DIR output_dir n +:+ "/")
     = Some n.
Proof.
  intros Hn.
  destruct (checkpoint_dir_suffix PREFIX_CHECKPOINT_DIR output_dir n)
    as [pre ->].
  apply checkpoint_step_suffix, Hn.
Qed.

Lemma checkpoint_name_roundtrip_witness :
  Trainer.checkpoint_step (checkpoint_dir "checkpoint" "runs/t5-vae" 1500)
    = Some 1500
  /\ Trainer.checkpoint_step
       (checkpoint_dir "checkpoint" "runs/t5-vae" 1500 +:+ "/")
     = Some 1500.
Proof.
  apply (checkpoint_name_roundtrip "checkpoint" "runs/t5-vae" 1500). lia.
Defined.

(** ** The sequence length the bottleneck is built for *)

Section SetLength.

Import Torch.



End SetLength.



(** ** Building and caching the dataset *)

Section DatasetFacts.

Context `{SetIteration} `{Shuffle}.

Lemma fold_left_max_spec l : forall x,
  (x <= fold_left Nat.max l x)%nat
  /\ Forall (fun y => (y <= fold_left Nat.max l x)%nat) l.
Proof.
  induction l as [|a l IH]; intros x; simpl; [split; [lia | constructor]|].
  destruct (IH (Nat.max x a)) as [H1 H2].
  split; [lia|]. constructor; [lia | exact H2].
Qed.

Lemma fold_left_min_spec l : forall x,
  (fold_left Nat.min l x <= x)%nat
  /\ Forall (fun y => (fold_left Nat.min l x <= y)%nat) l.
Proof.
  induction l as [|a l IH]; intros x; simpl; [split; [lia | constructor]|].
  destruct (IH (Nat.min x a)) as [H1 H2].
  split; [lia|]. constructor; [lia | exact H2].
Qed.

Lemma fold_left_max_const (n : nat) l :
  Forall (fun y => y = n) l -> fold_left Nat.max l n = n.
Proof.
  induction 1 as [|a l -> _ IH]; simpl; [reflexivity|].
  rewrite Nat.max_id. exact IH.
Qed.

Lemma fold_left_min_const (n : nat) l :
  Forall (fun y => y = n) l -> fold_left Nat.min l n = n.
Proof.
  induction 1 as [|a l -> _ IH]; simpl; [reflexivity|].
  rewrite Nat.min_id. exact IH.
Qed.

(** [max(l) == min(l) == n] holds exactly when [l] is not empty and all
    its entries are [n]. *)
Lemma lengths_checked (l : list nat) (n : Z) :
  (exists longest shortest,
     py_max l = Ok longest /\ py_min l = Ok shortest
     /\ longest = shortest /\ Z.of_nat shortest = n)
  <-> l <> [] /\ Forall (fun x => Z.of_nat x = n) l.
Proof.
  split.
  - intros (mx & mn & Hmx & Hmn & Heq & Hn).
    destruct l as [|x l]; [discriminate|]. split; [discriminate|].
    injection Hmx as Hmx. injection Hmn as Hmn.
    destruct (fold_left_max_spec l x) as [Hx1 Hl1].
    destruct (fold_left_min_spec l x) as [Hx2 Hl2].
    rewrite Hmx in Hx1, Hl1. rewrite Hmn in Hx2, Hl2.
    constructor; [lia|].
    rewrite Forall_forall in Hl1, Hl2. apply Forall_forall.
    intros y Hy. specialize (Hl1 y Hy). specialize (Hl2 y Hy). lia.
  - intros [Hne Hall]. destruct l as [|x l]; [contradiction|].
    apply Forall_cons in Hall as [Hx Hl].
    assert (Hl' : Forall (fun y => y = x) l)
      by (eapply Forall_impl; [exact Hl | intros y Hy; simpl in Hy; lia]).
    exists x, x. simpl.
    rewrite fold_left_max_const, fold_left_min_const by exact Hl'.
    repeat split; assumption.
Qed.

(** The outcomes of building the examples, after the lines are
    tokenized. *)
Lemma build_examples_cases tk content n :
  match map_res (tokenize tk) (shuffle (_get_text_sequences content)) with
  | Raise e => build_examples tk content n = Raise e
  | Ok toks =>
      (toks = [] -> build_examples tk content n = Raise ValueError)
      /\ (toks <> [] -> Forall (fun e => Z.of_nat (length e) = n) toks ->
          build_examples tk content n = Ok toks)
      /\ (toks <> [] -> ~ Forall (fun e => Z.of_nat (length e) = n) toks ->
          build_examples tk content n = Raise AssertionError)
  end.
Proof.
  unfold build_examples.
  destruct (map_res _ _) as [toks|e]; [|reflexivity]. simpl.
  split; [intros ->; reflexivity|].
  assert (Hiff := lengths_checked (length <$> toks) n).
  assert (Hne : toks <> [] -> exists mx mn,
             py_max (length <$> toks) = Ok mx
             /\ py_min (length <$> toks) = Ok mn).
  { destruct toks; [contradiction | intros _; simpl; eauto]. }
  split.
  - intros Hn Hall. destruct Hiff as [_ Hiff].
    destruct Hiff as (mx & mn & -> & -> & Heq & Hmn).
    { split; [destruct toks; [contradiction | discriminate]|].
      apply Forall_fmap. exact Hall. }
    simpl. rewrite decide_True by (split; assumption). reflexivity.
  - intros Hn Hbad. destruct (Hne Hn) as (mx & mn & Hmx & Hmn).
    rewrite Hmx, Hmn. simpl.
    destruct (decide _) as [[Heq Hsz]|_]; [|reflexivity].
    exfalso. apply Hbad.
    destruct Hiff as [Hiff _].
    destruct Hiff as [_ Hall]; [eauto 6|].
    apply Forall_fmap in Hall. exact Hall.
Qed.

Lemma map_res_ok {A B} (f : A -> res B) l :
  Forall (fun x => exists y, f x = Ok y) l -> exists ys, map_res f l = Ok ys.
Proof.
  intros Hall.
  destruct (map_res_shape f (fun x => exists y, f x = Ok y) (fun _ => True) l)
    as (ys & Hys & _); [|exact Hall|eauto].
  intros x [y Hy]. eauto.
Qed.

Lemma results_of_inputs {A B} (f : A -> res B) (Q : B -> Prop) xs ys :
  Forall2 (fun x y => f x = Ok y) xs ys ->
  Forall (fun x => exists y, f x = Ok y /\ Q y) xs -> Forall Q ys.
Proof.
  induction 1 as [|x y xs ys Hxy _ IH]; intros Hall; constructor.
  - apply Forall_cons in Hall as [(y' & Hy' & HQ) _]. congruence.
  - apply IH. apply Forall_cons in Hall as [_ Hall]. exact Hall.
Qed.

Lemma inputs_of_results {A B} (f : A -> res B) (Q : B -> Prop) xs ys :
  Forall2 (fun x y => f x = Ok y) xs ys ->
  Forall Q ys -> Forall (fun x => exists y, f x = Ok y /\ Q y) xs.
Proof.
  induction 1 as [|x y xs ys Hxy _ IH]; intros Hall; constructor.
  - apply Forall_cons in Hall as [HQ _]. eauto.
  - apply IH. apply Forall_cons in Hall as [_ Hall]. exact Hall.
Qed.

Lemma build_examples_ok tk content n toks :
  build_examples tk content n = Ok toks ->
  toks <> []
  /\ Forall (fun e => Z.of_nat (length e) = n) toks
  /\ Forall2 (fun t e => tokenize tk t = Ok e)
       (shuffle (_get_text_sequences content)) toks.
Proof.
  intros Hok. pose proof (build_examples_cases tk content n) as Hc.
  destruct (map_res _ _) as [toks'|e] eqn:Hmap; [|congruence].
  destruct Hc as (Hnil & Hgood & Hbad).
  destruct (decide (toks' = [])) as [Hn|Hn]; [rewrite Hnil in Hok by exact Hn; discriminate|].
  destruct (decide (Forall (fun e => Z.of_nat (length e) = n) toks'))
    as [Hall|Hall].
  - rewrite Hgood in Hok by assumption. injection Hok as <-.
    repeat split; try assumption. apply map_res_inv, Hmap.
  - rewrite Hbad in Hok by assumption. discriminate.
Qed.

End DatasetFacts.

(** X10. [NesDataset] builds its examples exactly when the corpus has a
    line that is not empty and every such line, stripped, tokenizes to
    [set_seq_size] ids; a corpus without such a line raises [ValueError].
    The examples are the tokenized lines in shuffled order, each of
    length [set_seq_size], so each line holds [set_seq_size - 1] spaces. *)
Theorem dataset_build `{SetIteration} `{Shuffle} (tk : NesT5Tokenizer)
    (content : string) (n : Z) :
  (is_ok (build_examples tk content n)
   <-> _get_text_sequences content <> []
       /\ Forall (fun t => exists e, tokenize tk t = Ok e
                                     /\ Z.of_nat (length e) = n)
            (_get_text_sequences content))
  /\ (forall examples,
        build_examples tk content n = Ok examples ->
        Forall2 (fun t e => tokenize tk t = Ok e)
          (shuffle (_get_text_sequences content)) examples
        /\ Forall (fun e => Z.of_nat (length e) = n) examples
        /\ Forall (fun t => Z.of_nat (count_char " " t) = n - 1)
             (_get_text_sequences content))
  /\ (match _get_text_sequences content with
      | [] => build_examples tk content n = Raise ValueError
      | _ :: _ => True
      end).
Proof.
  assert (Hres : forall examples,
            build_examples tk content n = Ok examples ->
            Forall (fun t => exists e, tokenize tk t = Ok e
                                       /\ Z.of_nat (length e) = n)
              (shuffle (_get_text_sequences content))).
  { intros examples (_ & Hall & Htok)%build_examples_ok.
    eapply inputs_of_results; eassumption. }
  split; [split|split].
  - intros Hok. destruct (build_examples tk content n) as [examples|] eqn:Hb;
      [|contradiction].
    pose proof (Hres _ eq_refl) as Hall. rewrite shuffle_perm in Hall.
    split; [|exact Hall].
    apply build_examples_ok in Hb as (Hne & _ & Htok).
    intros Hnil. rewrite Hnil in Htok.
    pose proof (shuffle_perm []) as Hp. apply Permutation_nil_r in Hp.
    rewrite Hp in Htok. inversion Htok; subst. contradiction.
  - intros [Hne Hall]. rewrite <- shuffle_perm in Hall.
    pose proof (build_examples_cases tk content n) as Hc.
    destruct (map_res_ok (tokenize tk) _
                (Forall_impl _ _ _ Hall
                   (fun t '(ex_intro _ e (conj He _)) => ex_intro _ e He)))
      as [toks Hmap].
    rewrite Hmap in Hc. destruct Hc as (_ & Hgood & _).
    pose proof (map_res_inv _ _ _ Hmap) as Htok.
    rewrite Hgood; [exact I| |].
    + intros ->. inversion Htok as [Hs|]; subst.
      apply Hne. apply Permutation_nil_r. rewrite <- shuffle_perm.
      rewrite <- Hs. reflexivity.
    + eapply results_of_inputs; eassumption.
  - intros examples Hb. pose proof (Hres _ Hb) as Hall.
    apply build_examples_ok in Hb as (_ & Hlen & Htok).
    split; [exact Htok|]. split; [exact Hlen|].
    rewrite shuffle_perm in Hall.
    eapply Forall_impl; [exact Hall|].
    intros t (e & He & Hn). simpl.
    apply map_res_inv, Forall2_length in He.
    rewrite split_length in He. lia.
  - destruct (_get_text_sequences content) eqn:Hl; [|exact I].
    pose proof (build_examples_cases tk content n) as Hc. rewrite Hl in Hc.
    pose proof (shuffle_perm []) as Hp. apply Permutation_nil_r in Hp.
    rewrite Hp in Hc. simpl in Hc. apply Hc. reflexivity.
Qed.

Section CachePaths.

Lemma rpartition_spec p :
  p = fst (rpartition p) +:+ snd (rpartition p)
  /\ has_char "/" (snd (rpartition p)) = false
  /\ (fst (rpartition p) = "" \/ endswith "/" (fst (rpartition p)) = true).
Proof.
  induction p as [|a p IH]; simpl; [auto|].
  destruct (rpartition p) as [h t]. simpl in IH.
  destruct IH as (Hp & Ht & Hh).
  destruct (bool_decide (h <> "") || Ascii.eqb a "/") eqn:Hc; simpl.
  - split; [rewrite Hp; reflexivity|]. split; [exact Ht|]. right.
    destruct h as [|b h].
    + apply orb_true_iff in Hc as [Hc|Hc]; [|exact Hc].
      apply bool_decide_eq_true in Hc. contradiction.
    + destruct Hh as [Hh|Hh]; [discriminate | exact Hh].
  - apply orb_false_elim in Hc as [Hh' Ha].
    apply bool_decide_eq_false in Hh'.
    assert (h = "") as -> by (destruct h; [reflexivity | exfalso; apply Hh'; discriminate]).
    simpl in Hp. split; [rewrite Hp; reflexivity|]. rewrite Ha, Ht. auto.
Qed.

Lemma path_split_tail p : snd (path_split p) = snd (rpartition p).
Proof.
  unfold path_split. destruct (rpartition p) as [h t].
  destruct (_ && _); reflexivity.
Qed.

Lemma cached_features_file_parts file_path n :
  cached_features_file file_path n
  = cache_prefix file_path
    +:+ ("nes_seq_size_" +:+ str n +:+ "_" +:+ snd (rpartition file_path)).
Proof.
  unfold cached_features_file, cache_prefix.
  rewrite <- path_split_tail.
  destruct (path_split file_path) as [d f]. simpl.
  unfold path_join. simpl.
  destruct (_ || _); [reflexivity|].
  rewrite string_app_assoc. reflexivity.
Qed.

Lemma endswith_chars c s :
  endswith c s = true -> exists l, chars s = l ++ [c].
Proof.
  induction s as [|a s IH]; simpl; [discriminate|].
  destruct s as [|b s].
  - intros ->%Ascii.eqb_eq. exists []. reflexivity.
  - intros [l Hl]%IH. exists (a :: l). rewrite Hl. reflexivity.
Qed.

Lemma string_app_inv_tail (s1 s2 t : string) :
  s1 +:+ t = s2 +:+ t -> s1 = s2.
Proof.
  intros Heq. apply chars_inj. apply (f_equal chars) in Heq.
  rewrite !chars_app in Heq. apply app_inv_tail in Heq. exact Heq.
Qed.

Lemma string_app_inv_head (s t1 t2 : string) :
  s +:+ t1 = s +:+ t2 -> t1 = t2.
Proof.
  intros Heq. apply chars_inj. apply (f_equal chars) in Heq.
  rewrite !chars_app in Heq. apply app_inv_head in Heq. exact Heq.
Qed.

Lemma cached_features_file_fresh file_path n :
  cached_features_file file_path n <> file_path.
Proof.
  rewrite cached_features_file_parts.
  destruct (rpartition_spec file_path) as (Hp & _ & Hh).
  remember (fst (rpartition file_path)) as h eqn:Eh.
  remember (snd (rpartition file_path)) as t eqn:Et.
  intros Heq. pose proof (eq_trans Heq Hp) as Heq'.
  assert (Hh' : cache_prefix file_path
                +:+ ("nes_seq_size_" +:+ str n +:+ "_") = h).
  { apply (string_app_inv_tail _ _ t). rewrite <- Heq'.
    rewrite !string_app_assoc. reflexivity. }
  apply (f_equal chars) in Hh'. rewrite !chars_app in Hh'.
  change (chars "_") with ["_"%char] in Hh'. rewrite !app_assoc in Hh'.
  destruct Hh as [Hh|Hh].
  - rewrite Hh in Hh'. apply app_eq_nil in Hh' as [_ Hh']. discriminate.
  - apply endswith_chars in Hh as [l Hl]. rewrite Hl in Hh'.
    apply app_inj_tail in Hh' as [_ Hc]. discriminate.
Qed.

End CachePaths.

(** X11. Once [NesDataset] has been constructed, from the corpus or from
    the cache, constructing it again for the same path and sequence size
    without [overwrite_cache] returns the same examples from the cache
    file alone: the corpus, the tokenizer and the shuffle are not looked
    at, and no file is written. *)
Theorem cache_reused (I1 I2 : SetIteration) (S1 S2 : Shuffle) `{Pickle}
    (fs fs' : FileSystem) (tk : NesT5Tokenizer) (file_path : string)
    (n : Z) (overwrite_cache : bool) (obj : unpickled) :
  @NesDataset_init I1 S1 _ fs tk file_path n overwrite_cache
    = (inl obj, fs') ->
  forall (fs2 : FileSystem) (tk2 : NesT5Tokenizer),
    fs2 !! cached_features_file file_path n
      = fs' !! cached_features_file file_path n ->
    @NesDataset_init I2 S2 _ fs2 tk2 file_path n false = (inl obj, fs2).
Proof.
  intros Hinit fs2 tk2 Hsame.
  assert (Hcache : exists bytes,
            fs' !! cached_features_file file_path n = Some bytes
            /\ load bytes = Some obj).
  { unfold NesDataset_init in Hinit.
    destruct (if overwrite_cache then None else _) as [bytes|] eqn:Hc.
    - destruct overwrite_cache; [discriminate|].
      destruct (load bytes) as [o|] eqn:Hl; [|discriminate].
      injection Hinit as <- <-. eauto.
    - destruct (fs !! file_path) as [content|]; [|discriminate].
      destruct (build_examples _ _ _) as [examples|e]; [|discriminate].
      injection Hinit as <- <-. exists (dump examples).
      unfold FileSystem in *. rewrite lookup_insert_eq. split; [reflexivity | apply load_dump]. }
  destruct Hcache as (bytes & Hb & Hl).
  unfold NesDataset_init. rewrite Hsame, Hb, Hl. reflexivity.
Qed.

Lemma cache_reused_witness :
  @NesDataset_init elements_iteration in_order unary_pickle cache_only
    no_tokenizer "data/train.txt" 3 false
  = (inl (Examples [[6; 2; 9]; [11; 2; 12]; [10; 3; 10]]%nat), cache_only).
Proof.
  apply (@cache_reused elements_iteration elements_iteration in_order in_order
           unary_pickle files
           (<["data/nes_seq_size_3_train.txt"
              := unary_dump [[6; 2; 9]; [11; 2; 12]; [10; 3; 10]]%nat]> files)
           tokenizer "data/train.txt" 3 false).
  - vm_compute. reflexivity.
  - vm_compute. reflexivity.
Defined.

(** X12. The cache file is never the corpus file, whatever the path and the
    sequence size: constructing [NesDataset] leaves the corpus as it
    was. *)
Theorem cache_spares_corpus `{SetIteration} `{Shuffle} `{Pickle}
    (fs : FileSystem) (tk : NesT5Tokenizer) (file_path : string) (n : Z)
    (overwrite_cache : bool) :
  cached_features_file file_path n <> file_path
  /\ snd (NesDataset_init fs tk file_path n overwrite_cache) !! file_path
     = fs !! file_path.
Proof.
  pose proof (cached_features_file_fresh file_path n) as Hne.
  split; [exact Hne|].
  unfold NesDataset_init.
  destruct (if overwrite_cache then None else _) as [bytes|].
  - destruct (load bytes); reflexivity.
  - destruct (fs !! file_path) as [content|] eqn:Hf; [|simpl; exact Hf].
    destruct (build_examples _ _ _); simpl; [|exact Hf].
    unfold FileSystem in *. rewrite lookup_insert_ne by exact Hne. exact Hf.
Qed.

(** X13. Two sequence sizes never share a cache file: for one corpus path
    the cache paths of different sizes differ. *)
Theorem cache_per_size (file_path : string) (n1 n2 : Z) :
  n1 <> n2 ->
  cached_features_file file_path n1 <> cached_features_file file_path n2.
Proof.
  intros Hne Heq. apply Hne.
  rewrite !cached_features_file_parts in Heq.
  apply string_app_inv_head in Heq.
  apply (string_app_inv_head "nes_seq_size_") in Heq.
  rewrite <- !(string_app_assoc (str _) "_") in Heq.
  assert (Hlen : str n1 +:+ "_" = str n2 +:+ "_").
  { eapply string_app_inv_tail. exact Heq. }
  apply string_app_inv_tail in Hlen.
  apply (inj pretty) in Hlen. exact Hlen.
Qed.

Lemma cache_per_size_witness :
  cached_features_file "data/train.txt" 3
  <> cached_features_file "data/train.txt" 30.
Proof.
  apply (cache_per_size "data/train.txt" 3 30). lia.
Defined.

(** ** Greedy decoding *)

Section GreedyFacts.

Variable Logits : Type.
Variable dec : list nat -> Logits.
Variable topk_at : Logits -> nat -> res nat.
Variable eos : nat.

Hypothesis topk_ok : forall ids i, is_ok (topk_at (dec ids) i).


End GreedyFacts.



(** ** Symmetry of the maximum mean discrepancy *)

Section MmdSymmetry.

Import Torch.
Local Open Scope R_scope.

Lemma mapM_osum (l : list (option R)) :
  match mapM (M := option) (fun o : option R => o) l with
  | Some l' => osum l = Some (Rsum l') /\ length l' = length l
  | None => osum l = None
  end.
Proof.
  induction l as [|o l IH]; simpl; [auto|].
  destruct o as [a|]; simpl; [|reflexivity].
  destruct (mapM _ l) as [l'|]; simpl.
  - destruct IH as [-> Hlen]. simpl. split; [reflexivity | lia].
  - rewrite IH. reflexivity.
Qed.

(** [mean_all] in terms of the sum and the number of the entries. *)
Lemma mean_all_osum (K : list (list (option R))) :
  mean_all K
  = match concat K with
    | [] => None
    | _ => s ← osum (concat K); Some (s / INR (length (concat K)))
    end.
Proof.
  unfold mean_all. pose proof (mapM_osum (concat K)) as Hm.
  destruct (mapM _ (concat K)) as [l'|] eqn:El; simpl.
  - destruct Hm as [Hs Hlen]. rewrite Hs, <- Hlen.
    destruct (concat K) as [|o l]; destruct l'; try discriminate;
      reflexivity.
  - rewrite Hm. simpl. destruct (concat K); [discriminate | reflexivity].
Qed.

Lemma osum_Permutation (l1 l2 : list (option R)) :
  l1 ≡ₚ l2 -> osum l1 = osum l2.
Proof.
  induction 1 as [|o l1 l2 _ IH|o1 o2 l|l1 l2 l3 _ IH1 _ IH2]; simpl.
  - reflexivity.
  - rewrite IH. reflexivity.
  - destruct o1 as [a|], o2 as [b|], (osum l) as [s|]; simpl;
      try reflexivity.
    f_equal. lra.
  - congruence.
Qed.

Lemma mean_all_Permutation (K1 K2 : list (list (option R))) :
  concat K1 ≡ₚ concat K2 -> mean_all K1 = mean_all K2.
Proof.
  intros Hp. rewrite !mean_all_osum.
  pose proof (Permutation_length Hp) as Hlen.
  rewrite (osum_Permutation _ _ Hp), Hlen.
  destruct (concat K1), (concat K2); simpl in Hlen; try discriminate;
    reflexivity.
Qed.

(** The entries of a table listed by rows and listed by columns. *)
Lemma concat_transpose {A B C} (f : A -> B -> C) (x : list A) (y : list B) :
  concat (fmap (M := list) (fun xi => fmap (M := list) (f xi) y) x)
  ≡ₚ concat (fmap (M := list)
               (fun yj => fmap (M := list) (fun xi => f xi yj) x) y).
Proof.
  induction x as [|xi x IH]; simpl.
  - induction y as [|yj y IHy]; simpl; [reflexivity | exact IHy].
  - rewrite IH. clear IH.
    induction y as [|yj y IHy]; simpl; [reflexivity|].
    constructor. rewrite <- IHy. apply Permutation_app_swap_app.
Qed.

Lemma kernel_entry_sym dim (xi yj : list R) :
  kernel_entry dim xi yj = kernel_entry dim yj xi.
Proof.
  assert (Hzip : zip_with (fun a b => (a - b) ^ 2) xi yj
                 = zip_with (fun a b => (a - b) ^ 2) yj xi).
  { revert yj. induction xi as [|a xi IH]; intros [|b yj]; simpl;
      try reflexivity.
    rewrite IH. f_equal. ring. }
  unfold kernel_entry. rewrite Hzip. reflexivity.
Qed.

Lemma compute_kernel_shaped n m d (x y : tensor2) :
  (1 <= n)%nat -> shape2 n d x -> shape2 m d y ->
  _compute_kernel x y
  = Ok (fmap (M := list)
          (fun xi => fmap (M := list) (kernel_entry d xi) y) x).
Proof.
  intros Hn Hx Hy. unfold _compute_kernel.
  rewrite (width_shape2 n d x Hn Hx).
  destruct (decide _) as [_|Hbad]; [reflexivity|].
  exfalso. apply Hbad. right. apply Hy.
Qed.

End MmdSymmetry.

(** X15. The maximum mean discrepancy is symmetric: on two batches that
    are not empty and have rows of one width, [_compute_mmd(x, y)] and
    [_compute_mmd(y, x)] are the same number (or both [nan]). *)
Theorem mmd_symmetric (n m d : nat) (x y : Torch.tensor2) :
  (1 <= n)%nat -> (1 <= m)%nat ->
  Torch.shape2 n d x -> Torch.shape2 m d y ->
  Torch._compute_mmd x y = Torch._compute_mmd y x.
Proof.
  intros Hn Hm Hx Hy. unfold Torch._compute_mmd.
  rewrite (compute_kernel_shaped n n d x x Hn Hx Hx).
  rewrite (compute_kernel_shaped m m d y y Hm Hy Hy).
  rewrite (compute_kernel_shaped n m d x y Hn Hx Hy).
  rewrite (compute_kernel_shaped m n d y x Hm Hy Hx).
  simpl. f_equal.
  assert (Hxy : Torch.mean_all
                  (fmap (M := list)
                     (fun yj => fmap (M := list) (kernel_entry d yj) x) y)
                = Torch.mean_all
                    (fmap (M := list)
                       (fun xi => fmap (M := list) (kernel_entry d xi) y) x)).
  { apply mean_all_Permutation.
    rewrite (concat_transpose (kernel_entry d) x y).
    apply Permutation_refl'. f_equal.
    apply list_fmap_ext. intros _ yj _.
    apply list_fmap_ext. intros _ xi _. apply kernel_entry_sym. }
  rewrite Hxy. clear Hxy.
  do 3 (match goal with
        | |- context [Torch.mean_all ?K] => generalize (Torch.mean_all K)
        end).
  intros [c|] [b|] [a|]; simpl; try reflexivity.
  f_equal. lra.
Qed.

Lemma mmd_symmetric_witness :
  Torch._compute_mmd batch_one batch_two
  = Torch._compute_mmd batch_two batch_one.
Proof.
  apply (mmd_symmetric 1 2 2 batch_one batch_two); try lia;
    (split; [reflexivity | repeat constructor]).
Defined.

(** ** Resuming when the accumulation factor divides the epoch *)

Section ResumeAligned.

Variable args : TrainingArguments.
Variable len : nat.

Local Abbreviation N := (gradient_accumulation_steps args).
Local Abbreviation E := (num_train_epochs args).

Hypothesis N_pos : 0 < N.
Hypothesis len_pos : (0 < len)%nat.
Hypothesis N_divides : Z.of_nat len mod N = 0.
Hypothesis no_max : max_steps args <= 0.




End ResumeAligned.



(** ** The loss logged at the first logging step *)

Section LoggedLoss.

Import Torch.

Variable args : TrainingArguments.
Variable la : LoggingArguments.
Variable len : nat.
Variable loss_of : nat -> R.

Local Abbreviation N := (gradient_accumulation_steps args).
Local Abbreviation L := (logging_steps la).

Hypothesis N_pos : 0 < N.
Hypothesis L_pos : 0 < L.
Hypothesis window : L * N <= Z.of_nat len.
Hypothesis not_first : logging_first_step la = false.
Hypothesis not_cut : max_steps args <= 0 \/ L <= max_steps args.

(** The losses added to [tr_loss] in the first [k] turns. *)
Local Abbreviation added k :=
  (Rsum (fmap (M := list) (fun i => returned_loss args (loss_of i)) (seq 0 k))).

Lemma Rsum_snoc l x : Rsum (l ++ [x]) = (Rsum l + x)%R.
Proof.
  induction l as [|a l IH]; simpl; [lra|]. rewrite IH. lra.
Qed.

Lemma added_S k :
  added (S k) = (added k + returned_loss args (loss_of k))%R.
Proof. rewrite seq_S, fmap_app. exact (Rsum_snoc _ _). Qed.

Lemma no_break g :
  g <= L ->
  bool_decide (0 < max_steps args) && bool_decide (max_steps args < g) = false.
Proof.
  intros Hg. destruct not_cut as [Hm|Hm].
  - rewrite bool_decide_eq_false_2 by lia. reflexivity.
  - rewrite (bool_decide_eq_false_2 (max_steps args < _)) by lia.
    apply andb_false_r.
Qed.

(** A turn before the window is full logs nothing. *)
Lemma loss_step_quiet k :
  Z.of_nat (S k) < L * N ->
  loss_step args la len loss_of k
    {| at_global_step := Z.of_nat k / N; tr_loss := added k;
       logging_loss := 0%R; logged := [] |}
  = Ok {| at_global_step := Z.of_nat (S k) / N; tr_loss := added (S k);
          logging_loss := 0%R; logged := [] |}.
Proof.
  intros Hk. unfold loss_step.
  cbn [at_global_step tr_loss logging_loss logged].
  pose proof (div_succ N (Z.of_nat k) N_pos ltac:(lia)) as Hdiv.
  pose proof (at_boundary_min args len k N_pos ltac:(nia)) as Hb.
  rewrite Z.min_l in Hb by nia.
  assert (Hnext : Z.of_nat (S k) / N < L).
  { apply Z.div_lt_upper_bound; [lia|]. nia. }
  rewrite <- added_S.
  replace (Z.of_nat (S k)) with (Z.of_nat k + 1) in * by lia.
  destruct (at_boundary args len k) eqn:Hat.
  - assert (Hon : (Z.of_nat k + 1) mod N = 0) by (apply Hb; reflexivity).
    rewrite decide_True in Hdiv by exact Hon.
    assert (Hdue : logging_due la (Z.of_nat k / N + 1) = false).
    { unfold logging_due. rewrite not_first, andb_false_r, orb_false_r.
      rewrite (bool_decide_eq_false_2 (_ mod _ = 0)); [apply andb_false_r|].
      rewrite Z.mod_small; [|split; [|lia]];
        pose proof (Z.div_pos (Z.of_nat k) N ltac:(lia) N_pos); lia. }
    rewrite Hdue, Hdiv. reflexivity.
  - assert (Hoff : (Z.of_nat k + 1) mod N <> 0)
      by (intros Hm; apply Hb in Hm; discriminate).
    rewrite decide_False in Hdiv by exact Hoff.
    rewrite Hdiv, Z.add_0_r. reflexivity.
Qed.

(** The turn that fills the window logs the loss added so far, over
    [logging_steps * gradient_accumulation_steps]. *)
Lemma loss_step_logs k :
  Z.of_nat (S k) = L * N ->
  loss_step args la len loss_of k
    {| at_global_step := Z.of_nat k / N; tr_loss := added k;
       logging_loss := 0%R; logged := [] |}
  = Ok {| at_global_step := L; tr_loss := added (S k);
          logging_loss := added (S k);
          logged := [(L, ((added (S k) - 0) / IZR (L * N))%R)] |}.
Proof.
  intros Hk. unfold loss_step.
  cbn [at_global_step tr_loss logging_loss logged].
  pose proof (div_succ N (Z.of_nat k) N_pos ltac:(lia)) as Hdiv.
  pose proof (at_boundary_min args len k N_pos ltac:(nia)) as Hb.
  rewrite Z.min_l in Hb by nia.
  rewrite <- added_S.
  replace (Z.of_nat k + 1) with (L * N) in * by lia.
  rewrite Z.mod_mul in * by lia.
  rewrite decide_True in Hdiv by reflexivity.
  rewrite Z.div_mul in Hdiv by lia.
  assert (Hat : at_boundary args len k = true) by (apply Hb; reflexivity).
  rewrite Hat, <- Hdiv.
  assert (Hdue : logging_due la L = true).
  { unfold logging_due. rewrite Z.mod_same by lia.
    rewrite !bool_decide_eq_true_2 by lia. reflexivity. }
  rewrite Hdue. rewrite decide_False by nia. reflexivity.
Qed.

Lemma loss_steps_window m : forall k,
  Z.of_nat (k + S m) = L * N ->
  loss_steps args la len loss_of (seq k (S m))
    {| at_global_step := Z.of_nat k / N; tr_loss := added k;
       logging_loss := 0%R; logged := [] |}
  = Ok {| at_global_step := L; tr_loss := added (k + S m);
          logging_loss := added (k + S m);
          logged := [(L, ((added (k + S m) - 0) / IZR (L * N))%R)] |}.
Proof.
  induction m as [|m IH]; intros k Hk.
  - replace (k + 1)%nat with (S k) in * by lia.
    cbn [seq loss_steps]. rewrite loss_step_logs by exact Hk. simpl.
    rewrite no_break by lia. reflexivity.
  - change (seq k (S (S m))) with (k :: seq (S k) (S m)).
    cbn [loss_steps]. rewrite loss_step_quiet by lia. simpl.
    rewrite no_break
      by (assert (Z.of_nat (S k) / N < L)
            by (apply Z.div_lt_upper_bound; [lia | nia]); lia).
    replace (k + S (S m))%nat with (S k + S m)%nat by lia.
    apply IH. lia.
Qed.

Lemma Rsum_scaled (c : R) (l : list R) :
  Rsum (fmap (M := list) (fun x => x / c)%R l) = (Rsum l / c)%R.
Proof.
  induction l as [|a l IH]; [simpl; unfold Rdiv; ring|].
  change (Rsum (fmap (M := list) (fun x => x / c)%R (a :: l)))
    with (a / c + Rsum (fmap (M := list) (fun x => x / c)%R l))%R.
  rewrite IH. change (Rsum (a :: l)) with (a + Rsum l)%R.
  unfold Rdiv. ring.
Qed.

End LoggedLoss.

(** X17. The loss [train] logs first.  In a fresh run with accumulation
    factor [N >= 1] that logs every [L] optimizer steps, the first value
    given to [logs["loss"]], at global step [L], is the mean loss of the
    [L * N] batches seen so far, divided once more by [N] when [N > 1]:
    [_run_training_step] has divided each loss by [N] already, and the
    logged difference is divided by [L * N]. *)
Theorem first_logged_loss (args : TrainingArguments) (la : LoggingArguments)
    (len : nat) (loss_of : nat -> R) :
  0 < gradient_accumulation_steps args ->
  0 < logging_steps la ->
  logging_steps la * gradient_accumulation_steps args <= Z.of_nat len ->
  logging_first_step la = false ->
  max_steps args <= 0 \/ logging_steps la <= max_steps args ->
  exists st,
    loss_steps args la len loss_of
      (seq 0 (Z.to_nat (logging_steps la * gradient_accumulation_steps args)))
      loss_start
    = Ok st
    /\ at_global_step st = logging_steps la
    /\ logged st
       = [(logging_steps la,
           (Torch.Rsum
              (fmap (M := list) loss_of
                 (seq 0 (Z.to_nat (logging_steps la
                                   * gradient_accumulation_steps args)%Z)))
            / IZR (logging_steps la * gradient_accumulation_steps args)%Z
            / (if decide (1 < gradient_accumulation_steps args)%Z
               then IZR (gradient_accumulation_steps args) else 1))%R)].
Proof.
  intros HN HL Hwin Hfirst Hcut.
  set (N := gradient_accumulation_steps args) in *.
  set (L := logging_steps la) in *.
  destruct (Z.to_nat (L * N)) as [|m] eqn:HK; [nia|].
  pose proof (loss_steps_window args la len loss_of HN HL Hwin Hfirst Hcut
                m 0 ltac:(lia)) as Hrun.
  eexists. split; [exact Hrun|]. split; [reflexivity|].
  cbn [logged]. do 2 f_equal.
  assert (HNr : IZR N <> 0%R) by (apply not_0_IZR; lia).
  assert (HLN : IZR (L * N) <> 0%R) by (apply not_0_IZR; nia).
  change (0 + S m)%nat with (S m).
  unfold returned_loss. fold N. fold L.
  remember (IZR N) as a eqn:Ea. remember (IZR (L * N)) as b eqn:Eb.
  clear Ea Eb Hrun.
  destruct (decide (1 < N)) as [Hacc|Hone].
  - rewrite (list_fmap_compose loss_of (fun x => x / a)%R).
    rewrite Rsum_scaled.
    generalize (Torch.Rsum (fmap (M := list) loss_of (seq 0 (S m)))).
    intros s. clearbody N L. field. split; assumption.
  - change (fun i : nat => loss_of i) with loss_of.
    generalize (Torch.Rsum (fmap (M := list) loss_of (seq 0 (S m)))).
    intros s. clearbody N L. field. exact HLN.
Qed.

Lemma first_logged_loss_witness :
  exists st,
    loss_steps (training_args 2 0 1) logging_args 8 unit_loss
      (seq 0 (Z.to_nat (2 * 2))) loss_start
    = Ok st
    /\ at_global_step st = 2
    /\ logged st
       = [(2, (Torch.Rsum
                 (fmap (M := list) unit_loss (seq 0 (Z.to_nat (2 * 2)%Z)))
               / IZR (2 * 2)%Z
               / (if decide (1 < 2)%Z then IZR 2 else 1))%R)].
Proof.
  apply (first_logged_loss (training_args 2 0 1) logging_args 8 unit_loss);
    try reflexivity; simpl; lia.
Defined.

(** X18. The dataset, the tokenizer and the model fit together: when the
    tokenizer is built from a vocabulary file and the examples from a
    corpus, every example has [set_seq_size] ids and every id is below
    [len(tokenizer)], the [vocab_size] the T5 model is configured with. *)
Theorem dataset_ids_in_vocabulary `{SetIteration} `{Shuffle}
    (vocab corpus : string) (tk : NesT5Tokenizer) (n : Z)
    (examples : list (list nat)) :
  NesT5Tokenizer_init vocab = Ok tk ->
  build_examples tk corpus n = Ok examples ->
  Forall (fun e => Z.of_nat (length e) = n
                   /\ Forall (fun i => (i < NesT5Tokenizer_len tk)%nat) e)
    examples.
Proof.
  intros B%init_built (_ & Hlen & Htok)%build_examples_ok.
  revert Hlen. induction Htok as [|t e ts es Ht _ IH]; intros Hlen;
    constructor.
  - apply Forall_cons in Hlen as [He _]. split; [exact He|].
    apply map_res_inv in Ht. clear IH He.
    induction Ht as [|w i ws ids Hi _ IHw]; constructor; [|exact IHw].
    eapply get_index_in_range; eauto.
  - apply IH. apply Forall_cons in Hlen as [_ Hlen]. exact Hlen.
Qed.

Lemma dataset_ids_in_vocabulary_witness :
  Forall (fun e => Z.of_nat (length e) = 3
                   /\ Forall (fun i => (i < NesT5Tokenizer_len tokenizer)%nat) e)
    [[6; 2; 9]; [11; 2; 12]; [10; 3; 10]]%nat.
Proof.
  apply (@dataset_ids_in_vocabulary elements_iteration in_order
           vocab_file corpus tokenizer 3); vm_compute; reflexivity.
Defined.
